(** * dask.dataframe.multi: partition alignment, pruning and join builders

    A shallow embedding of [dask/dataframe/multi.py] and the properties of
    its partition metadata: [bound], [align], [require],
    [join_indexed_dataframes], [hash_join] and [concat_indexed_dataframes].

    Python values are modelled as follows.
    - boundary values (entries of [divisions]) are integers [Z];
    - list indices and partition numbers are [nat], slices clamp as in Python;
    - a raised exception is a value [Raise e] of the result type [Res];
    - the module-level [tokens] iterator and the calls made to the external
      collaborators [repartition] and [shuffle] live in an explicit [State]
      that is threaded through the builders and survives a raised exception;
    - a task graph (a Python dict) is a [gmap] from keys [(name, i)] to task
      descriptors, where the Python value [None] is [None]. *)

From Stdlib Require Import ZArith Lia Sorted.
From stdpp Require Import base option list sorting gmap sets strings pretty.

Local Open Scope Z_scope.
Local Open Scope nat_scope.

(** ** Exceptions and results *)

Inductive exn : Type :=
  | ValueError
  | IndexError
  | KeyError
  | AssertionError.

Inductive Res (A : Type) : Type :=
  | Ok (a : A)
  | Raise (e : exn).
Arguments Ok {A} a.
Arguments Raise {A} e.

Definition res_bind {A B} (f : A → Res B) (r : Res A) : Res B :=
  match r with
  | Ok a => f a
  | Raise e => Raise e
  end.

#[global] Instance res_ret : MRet Res := @Ok.
#[global] Instance res_mbind : MBind Res := @res_bind.

(** ** Python list primitives *)

(** [seq[a:b]] for non-negative [a] and [b]; both ends clamp to the length. *)
Definition slice {A} (l : list A) (a b : nat) : list A := drop a (take b l).

(** [seq[:-1]]. *)
Definition init {A} (l : list A) : list A := take (length l - 1) l.

(** [seq[0]]. *)
Definition first {A} (l : list A) : Res A :=
  match l with
  | [] => Raise IndexError
  | x :: _ => Ok x
  end.

(** [seq[-1]]. *)
Definition final {A} (l : list A) : Res A :=
  match last l with
  | None => Raise IndexError
  | Some x => Ok x
  end.

(** [min(seq)] and [max(seq)] on a list of indices. *)
Definition py_min (l : list nat) : Res nat :=
  match l with
  | [] => Raise ValueError
  | x :: l' => Ok (foldl Nat.min x l')
  end.

Definition py_max (l : list nat) : Res nat :=
  match l with
  | [] => Raise ValueError
  | x :: l' => Ok (foldl Nat.max x l')
  end.

(** ** [bisect] (Python standard library)

    The two loops of [bisect.bisect_left] and [bisect.bisect_right] with
    [lo = 0] and [hi = len(a)].  Every iteration shrinks [hi - lo], so
    [len(a)] units of fuel are never used up. *)

Fixpoint bisect_left_loop (fuel : nat) (a : list Z) (x : Z) (lo hi : nat) : nat :=
  match fuel with
  | O => lo
  | S fuel' =>
      if lo <? hi then
        let mid := (lo + hi) / 2 in
        if (nth mid a 0 <? x)%Z
        then bisect_left_loop fuel' a x (mid + 1) hi
        else bisect_left_loop fuel' a x lo mid
      else lo
  end.

Definition bisect_left (a : list Z) (x : Z) : nat :=
  bisect_left_loop (length a) a x 0 (length a).

Fixpoint bisect_right_loop (fuel : nat) (a : list Z) (x : Z) (lo hi : nat) : nat :=
  match fuel with
  | O => lo
  | S fuel' =>
      if lo <? hi then
        let mid := (lo + hi) / 2 in
        if (x <? nth mid a 0)%Z
        then bisect_right_loop fuel' a x lo mid
        else bisect_right_loop fuel' a x (mid + 1) hi
      else lo
  end.

Definition bisect_right (a : list Z) (x : Z) : nat :=
  bisect_right_loop (length a) a x 0 (length a).

(** ** [bound] *)

Definition bound (seq : list Z) (left right : Z) : list Z :=
  slice seq (bisect_left seq left) (bisect_right seq right).

(** ** [toolz.merge_sorted] and [toolz.unique] (external library)

    [merge_sorted] is a stable multiway merge of its arguments; [unique]
    yields each item the first time it is met, remembering the items in a
    set. *)

Definition merge_sorted (seqs : list (list Z)) : list Z :=
  foldr (list_merge Z.le) [] seqs.

Fixpoint unique_from (seen : gset Z) (seq : list Z) : list Z :=
  match seq with
  | [] => []
  | item :: rest =>
      if decide (item ∈ seen) then unique_from seen rest
      else item :: unique_from ({[item]} ∪ seen) rest
  end.

Definition unique (seq : list Z) : list Z := unique_from ∅ seq.

(** ** Task graphs and datasets *)

(** A partition reference: the name of a dataset and a partition number. *)
Definition key : Type := string * nat.

(** An operand of an emitted task: a partition reference or the empty
    placeholder table [pd.DataFrame([], columns=cols)]. *)
Inductive operand : Type :=
  | Part (k : key)
  | Empty (cols : list string).

Inductive task : Type :=
  | JoinTask (a b : operand) (how lsuffix rsuffix : string)
  | MergeTask (suffixes : string * string) (a b : key) (how on_left on_right : string)
  | ConcatTask (part : list operand) (join : string)
  | RepartitionTask (src : string) (i : nat)
  | ShuffleTask (src col : string) (i : nat)
  | SourceTask (tag : string).

(** A graph value is a task descriptor or the Python value [None]. *)
Abbreviation graph := (gmap key (option task)).

(** [DataFrame(dask, name, columns, divisions)]; [D] is the type of the
    boundary values ([Z] for an indexed dataset, [option _] after a shuffle). *)
Record DataFrame (D : Type) : Type := mkDataFrame {
  dask : graph;
  _name : string;
  columns : list string;
  divisions : list D
}.
Arguments mkDataFrame {D} _ _ _ _.
Arguments dask {D} _.
Arguments _name {D} _.
Arguments columns {D} _.
Arguments divisions {D} _.

(** [toolz.merge]: dictionary union in which later dictionaries win. *)
Definition merge (ds : list graph) : graph := foldl (λ acc d, d ∪ acc) ∅ ds.

(** ** State: the token source and the calls to external collaborators *)

Inductive call : Type :=
  | Repartition (src : string) (onto : list Z)
  | Shuffle (src col : string) (npartitions : Z).

Record State : Type := mkState {
  tokens : nat;
  calls : list call
}.

Definition M (A : Type) : Type := State → Res A * State.

Definition m_ret {A} (a : A) : M A := λ st, (Ok a, st).

Definition m_bind {A B} (f : A → M B) (m : M A) : M B :=
  λ st, match m st with
        | (Ok a, st') => f a st'
        | (Raise e, st') => (Raise e, st')
        end.

#[global] Instance M_ret : MRet M := @m_ret.
#[global] Instance M_mbind : MBind M := @m_bind.

(** A pure, possibly raising, computation inside a builder. *)
Definition lift {A} (r : Res A) : M A := λ st, (r, st).

(** Modelled from the spec: the [tokens] iterator of [dask.dataframe.core]
    is not part of the sources; it is the "module-level incrementing-token
    mechanism" that makes task-graph key names unique.  [next(tokens)] returns
    a suffix built from the counter and advances it. *)
Definition next_token : M string :=
  λ st, (Ok ("-" +:+ pretty (tokens st)),
         {| tokens := S (tokens st); calls := calls st |}).

Definition record (c : call) : M unit :=
  λ st, (Ok tt, {| tokens := tokens st; calls := calls st ++ [c] |}).

(** Modelled from the spec: [repartition] of [dask.dataframe.core] is not
    part of the sources.  "Repartition-by-boundaries(dataset,
    boundary_sequence) → dataset: returns a dataset whose BoundarySet equals
    the given (non-decreasing) sequence".  The new dataset gets a fresh name
    and one (opaque) task per new partition on top of the input's graph. *)
Definition repartition (df : DataFrame Z) (onto : list Z) : M (DataFrame Z) :=
  _ ← record (Repartition (_name df) onto);
  tok ← next_token;
  let out := "repartition-merge" +:+ tok in
  let dsk : graph :=
    list_to_map ((λ i, ((out, i), Some (RepartitionTask (_name df) i)))
                   <$> seq 0 (length onto - 1)) in
  mret (mkDataFrame (merge [dask df; dsk]) out (columns df) onto).

(** Modelled from the spec: [npartitions] of [dask.dataframe.core] is not
    part of the sources.  "Every dataset's BoundarySet length equals its
    partition count + 1." *)
Definition npartitions {D} (df : DataFrame D) : Z :=
  (Z.of_nat (length (divisions df)) - 1)%Z.

(** [[x] * n] and [range(n)] for a Python integer [n]. *)
Definition py_repeat {A} (x : A) (n : Z) : list A := replicate (Z.to_nat n) x.
Definition range (n : Z) : list nat := seq 0 (Z.to_nat n).

(** Modelled from the spec: [shuffle] of [dask.dataframe.shuffle] is not
    part of the sources.  "Redistribute(dataset, key_columns, bucket_count) →
    dataset: returns a dataset with exactly bucket_count partitions,
    BoundarySet = all-absent". *)
Definition shuffle {D} (df : DataFrame D) (col : string) (n : Z)
    : M (DataFrame (option D)) :=
  _ ← record (Shuffle (_name df) col n);
  tok ← next_token;
  let out := "shuffle" +:+ tok in
  let dsk : graph :=
    list_to_map ((λ i, ((out, i), Some (ShuffleTask (_name df) col i))) <$> range n) in
  mret (mkDataFrame (merge [dask df; dsk]) out (columns df) (py_repeat None (n + 1))).

(** The schema inference of the in-memory engine (pandas), an external
    collaborator: the columns of a zero-row join, merge or concatenation of
    empty tables with the given columns.  Each may raise. *)
Class Pandas : Type := {
  (** [left_empty.join(right_empty, None, how, lsuffix, rsuffix).columns] *)
  join_columns : list string → list string → string → string → string → Res (list string);
  (** [pd.merge(left_empty, right_empty, how, None, on_left, on_right).columns] *)
  merge_columns : list string → list string → string → string → string → Res (list string);
  (** [pd.concat(empties, 0, join).columns] *)
  concat_columns : list (list string) → string → Res (list string)
}.

(** ** [align] *)

(** [bound(divisions, df.divisions[0], df.divisions[-1])] for each [df]. *)
Fixpoint bound_each (divs : list Z) (dfs : list (DataFrame Z)) : Res (list (list Z)) :=
  match dfs with
  | [] => Ok []
  | df :: dfs' =>
      lo ← first (divisions df);
      hi ← final (divisions df);
      rest ← bound_each divs dfs';
      mret (bound divs lo hi :: rest)
  end.

(** [list(map(repartition, dfs, divisionss))]. *)
Fixpoint repartition_each (dfs : list (DataFrame Z)) (divisionss : list (list Z))
    : M (list (DataFrame Z)) :=
  match dfs, divisionss with
  | df :: dfs', onto :: divisionss' =>
      df2 ← repartition df onto;
      rest ← repartition_each dfs' divisionss';
      mret (df2 :: rest)
  | _, _ => mret []
  end.

(** The body of the inner loop [for i in range(len(dfs))]: [L] is the row
    under construction and [inds] the per-input cursors. *)
Definition align_cell (dfs2 : list (DataFrame Z)) (d : Z)
    (acc : list (option key) * list nat) (i : nat) : list (option key) * list nat :=
  let '(L, inds) := acc in
  match inds !! i, dfs2 !! i with
  | Some j, Some df =>
      let divs := divisions df in
      if bool_decide (j < length divs - 1) && bool_decide (divs !! j = Some d)
      then (L ++ [Some (_name df, j)], <[i := j + 1]> inds)
      else (L ++ [None], inds)
  | _, _ => acc
  end.

Definition align_row (n : nat) (dfs2 : list (DataFrame Z)) (d : Z) (inds : list nat)
    : list (option key) * list nat :=
  foldl (align_cell dfs2 d) ([], inds) (seq 0 n).

(** The outer loop [for d in divisions[:-1]]. *)
Fixpoint align_rows (n : nat) (dfs2 : list (DataFrame Z)) (ds : list Z) (inds : list nat)
    : list (list (option key)) :=
  match ds with
  | [] => []
  | d :: ds' =>
      let '(L, inds') := align_row n dfs2 d inds in
      L :: align_rows n dfs2 ds' inds'
  end.

Definition align (dfs : list (DataFrame Z))
    : M (list (DataFrame Z) * list Z * list (list (option key))) :=
  let divisions := unique (merge_sorted (divisions <$> dfs)) in
  divisionss ← lift (bound_each divisions dfs);
  dfs2 ← repartition_each dfs divisionss;
  let inds := replicate (length dfs) 0 in
  let result := align_rows (length dfs) dfs2 (init divisions) inds in
  mret (dfs2, divisions, result).

(** ** [require] *)

(** [[j for j, p in enumerate(parts) if p[i] is not None]], counting from
    [j]; [p[i]] raises when the row is too short. *)
Fixpoint present_from (i j : nat) (parts : list (list (option key))) : Res (list nat) :=
  match parts with
  | [] => Ok []
  | p :: parts' =>
      match p !! i with
      | None => Raise IndexError
      | Some c =>
          rest ← present_from i (S j) parts';
          mret (if c is Some _ then j :: rest else rest)
      end
  end.

Definition present (i : nat) (parts : list (list (option key))) : Res (list nat) :=
  present_from i 0 parts.

(** One iteration of [for i in required]. *)
Definition require_step {D} (acc : list D * list (list (option key))) (i : nat)
    : Res (list D * list (list (option key))) :=
  let '(divisions, parts) := acc in
  present ← present i parts;
  lo ← py_min present;
  hi ← py_max present;
  mret (slice divisions lo (hi + 2), slice parts lo (hi + 1)).

Fixpoint require_loop {D} (acc : list D * list (list (option key))) (required : list nat)
    : Res (list D * list (list (option key))) :=
  match required with
  | [] => Ok acc
  | i :: required' =>
      acc' ← require_step acc i;
      require_loop acc' required'
  end.

(** [required] is [None] (the default) or a list of slot numbers. *)
Definition require {D} (divisions : list D) (parts : list (list (option key)))
    (required : option (list nat)) : Res (list D * list (list (option key))) :=
  match required with
  | None | Some [] => Ok (divisions, parts)
  | Some required => require_loop (divisions, parts) required
  end.

(** The module-level table [required]. *)
Definition required : gmap string (list nat) :=
  list_to_map [("left", [0]); ("right", [1]); ("inner", [0; 1]); ("outer", [])].

(** [d[k]] on a dictionary. *)
Definition getitem {V} (d : gmap string V) (k : string) : Res V :=
  match d !! k with
  | Some v => Ok v
  | None => Raise KeyError
  end.

(** ** The builders *)

Section builders.
Context `{Pandas}.

(** The task recorded for one row [(a, b)] of the pruned matrix: the
    chain of conditional expressions, by cases on which of [a] and [b] is
    [None]. *)
Definition join_task (lhs rhs : DataFrame Z) (how lsuffix rsuffix : string)
    (a b : option key) : option task :=
  match a, b with
  | Some a, Some b => Some (JoinTask (Part a) (Part b) how lsuffix rsuffix)
  | Some a, None =>
      if bool_decide (how ∈ ["left"; "outer"])
      then Some (JoinTask (Part a) (Empty (columns rhs)) how lsuffix rsuffix)
      else None
  | None, Some b =>
      if bool_decide (how ∈ ["right"; "outer"])
      then Some (JoinTask (Empty (columns lhs)) (Part b) how lsuffix rsuffix)
      else None
  | None, None => None
  end.

(** [for i, (a, b) in enumerate(parts)], counting from [i]. *)
Fixpoint join_tasks (name : string) (lhs rhs : DataFrame Z) (how lsuffix rsuffix : string)
    (i : nat) (parts : list (list (option key))) : Res (list (key * option task)) :=
  match parts with
  | [] => Ok []
  | [a; b] :: parts' =>
      rest ← join_tasks name lhs rhs how lsuffix rsuffix (S i) parts';
      mret (((name, i), join_task lhs rhs how lsuffix rsuffix a b) :: rest)
  | _ :: _ => Raise ValueError
  end.

Definition join_indexed_dataframes (lhs rhs : DataFrame Z)
    (how lsuffix rsuffix : string) : M (DataFrame Z) :=
  '(dfs2, divisions, parts) ← align [lhs; rhs];
  '(lhs, rhs) ← lift (match dfs2 with
                      | [l; r] => Ok (l, r)
                      | _ => Raise ValueError
                      end);
  req ← lift (getitem required how);
  '(divisions, parts) ← lift (require divisions parts (Some req));
  tok ← next_token;
  let name := "join-indexed" +:+ tok in
  dsk ← lift (join_tasks name lhs rhs how lsuffix rsuffix 0 parts);
  j ← lift (join_columns (columns lhs) (columns rhs) how lsuffix rsuffix);
  mret (mkDataFrame (merge [dask lhs; dask rhs; list_to_map dsk]) name j divisions).

(** The argument [npartitions] is [npart] here, [None] being its default;
    the argument [how] is passed explicitly. *)
Definition hash_join {D} (lhs : DataFrame D) (on_left : string)
    (rhs : DataFrame D) (on_right : string) (how : string)
    (npart : option Z) (suffixes : string * string)
    : M (DataFrame (option D)) :=
  let npartitions :=
    match npart with
    | None => Z.max (npartitions lhs) (npartitions rhs)
    | Some n => n
    end in
  lhs2 ← shuffle lhs on_left npartitions;
  rhs2 ← shuffle rhs on_right npartitions;
  tok ← next_token;
  let name := "hash-join" +:+ tok in
  let dsk : graph :=
    list_to_map ((λ i, ((name, i),
                        Some (MergeTask suffixes (_name lhs2, i) (_name rhs2, i)
                                how on_left on_right)))
                   <$> range npartitions) in
  j ← lift (merge_columns (columns lhs) (columns rhs) how on_left on_right);
  let divisions := py_repeat None (npartitions + 1) in
  mret (mkDataFrame (merge [dask lhs2; dask rhs2; dsk]) name j divisions).

(** [[df if df is not None else empty for df, empty in zip(part, empties)]]. *)
Definition fill_part (empties : list (list string)) (part : list (option key))
    : list operand :=
  zip_with (λ df empty, from_option Part (Empty empty) df) part empties.

Definition concat_indexed_dataframes (dfs : list (DataFrame Z)) (join : string)
    : M (DataFrame Z) :=
  _ ← lift (if bool_decide (join ∈ ["inner"; "outer"]) then Ok tt
            else Raise AssertionError);
  '(dfs2, divisions, parts) ← align dfs;
  let empties := columns <$> dfs in
  columns ← lift (concat_columns empties join);
  let parts2 := fill_part empties <$> parts in
  tok ← next_token;
  let name := "concat-indexed" +:+ tok in
  let dsk : graph :=
    list_to_map (imap (λ i part, ((name, i), Some (ConcatTask part join))) parts2) in
  mret (mkDataFrame (merge (dsk :: (dask <$> dfs2))) name columns divisions).
End builders.

(** ** Notions used in the statements *)

(** The boundaries each input is repartitioned onto. *)
Definition targets (ds : list Z) (dfs : list (DataFrame Z)) : list (list Z) :=
  (λ df, bound ds (default 0%Z (head (divisions df)))
                  (default 0%Z (last (divisions df)))) <$> dfs.

(** The entries recorded for one input while [align] walks the common
    boundaries [ds], starting with the cursor at [j]. *)
Fixpoint column (df : DataFrame Z) (ds : list Z) (j : nat) : list (option key) :=
  match ds with
  | [] => []
  | d :: ds' =>
      if bool_decide (j < length (divisions df) - 1)
         && bool_decide (divisions df !! j = Some d)
      then Some (_name df, j) :: column df ds' (j + 1)
      else None :: column df ds' j
  end.

(** [n] references to consecutive partitions of [name], from [j] on. *)
Definition refs (name : string) (j n : nat) : list (option key) :=
  (λ i, Some (name, i)) <$> seq j n.

(** The rows of [col], counted from [j], that hold a reference. *)
Fixpoint positions (j : nat) (col : list (option key)) : list nat :=
  match col with
  | [] => []
  | c :: col' => if c is Some _ then j :: positions (S j) col' else positions (S j) col'
  end.

(** The boundaries re-derived for an input slot: the common boundary of
    every row where the slot is present, plus the closing boundary of the
    last such row. *)
Definition rederive (k : nat) (divisions : list Z) (parts : list (list (option key)))
    : list Z :=
  match present k parts with
  | Ok rows =>
      match last rows with
      | Some r => omap (λ i, divisions !! i) (rows ++ [r + 1])
      | None => []
      end
  | Raise _ => []
  end.

(** What [align] has done for one input [df], repartitioned into [df2],
    given the common boundaries [ds]. *)
Definition aligned_slot (ds : list Z) (df df2 : DataFrame Z) : Prop :=
  ∃ pre post lo hi,
    head (divisions df) = Some lo ∧ last (divisions df) = Some hi ∧
    divisions df2 = bound ds lo hi ∧
    ds = pre ++ divisions df2 ++ post ∧
    column df2 (init ds) 0
    = replicate (length pre) None
      ++ refs (_name df2) 0 (length (divisions df2) - 1)
      ++ replicate (length post) None ∧
    Sorted Z.lt (divisions df2) ∧
    head (divisions df2) = Some lo ∧ last (divisions df2) = Some hi ∧
    (∀ x, x ∈ divisions df2 ↔ x ∈ ds ∧ (lo ≤ x ≤ hi)%Z) ∧
    ((lo < hi)%Z → 2 ≤ length (divisions df2)).

(** The dataset has a first boundary strictly below its last boundary. *)
Definition spans (df : DataFrame Z) : Prop :=
  ∃ lo hi, head (divisions df) = Some lo ∧ last (divisions df) = Some hi ∧ (lo < hi)%Z.

(** Every boundary of [other] inside the range of [df] is a boundary of [df]. *)
Definition covers (df other : DataFrame Z) : Prop :=
  ∀ lo hi x,
    head (divisions df) = Some lo → last (divisions df) = Some hi →
    x ∈ divisions other → (lo ≤ x ≤ hi)%Z → x ∈ divisions df.

(** The task recorded for a row of the matrix of two datasets. *)
Definition row_task (lhs rhs : DataFrame Z) (how lsuffix rsuffix : string)
    (row : list (option key)) : option task :=
  match row with
  | [a; b] => join_task lhs rhs how lsuffix rsuffix a b
  | _ => None
  end.

(** The boundary ranges of the two datasets do not meet. *)
Definition disjoint_ranges (lhs rhs : DataFrame Z) : Prop :=
  ∃ lo1 hi1 lo2 hi2,
    head (divisions lhs) = Some lo1 ∧ last (divisions lhs) = Some hi1 ∧
    head (divisions rhs) = Some lo2 ∧ last (divisions rhs) = Some hi2 ∧
    ((hi1 < lo2)%Z ∨ (hi2 < lo1)%Z).

(** A row that pairs a partition of one input with an absent slot. *)
Definition one_sided (row : list (option key)) : Prop :=
  ∃ k, row = [Some k; None] ∨ row = [None; Some k].

(** Row [j] of the matrix holds a partition reference in slot [i]. *)
Definition slot_present (i : nat) (parts : list (list (option key))) (j : nat) : Prop :=
  ∃ p k, parts !! j = Some p ∧ p !! i = Some (Some k).

(** The rows in which slot [i] is present are consecutive. *)
Definition contiguous (i : nat) (parts : list (list (option key))) : Prop :=
  ∀ j1 j2 j3, j1 ≤ j2 → j2 ≤ j3 →
    slot_present i parts j1 → slot_present i parts j3 → slot_present i parts j2.

(** [lo] and [hi] are the first and the last row with slot [i] present. *)
Definition presence_range (i : nat) (parts : list (list (option key)))
    (lo hi : nat) : Prop :=
  slot_present i parts lo ∧ slot_present i parts hi ∧
  ∀ r, slot_present i parts r → lo ≤ r ≤ hi.

(** ** Concrete datasets *)

(** A stand-in for the schema inference of the in-memory engine: the columns
    of both sides, one after the other. *)
Definition toy_pandas : Pandas := {|
  join_columns l r _ _ _ := Ok (l ++ r);
  merge_columns l r _ _ _ := Ok (l ++ r);
  concat_columns ls _ := Ok (mjoin ls)
|}.

(** A dataset read from a source, one opaque task per partition. *)
Definition source (name : string) (cols : list string) (divs : list Z) : DataFrame Z :=
  mkDataFrame
    (list_to_map ((λ i, ((name, i), Some (SourceTask name))) <$> seq 0 (length divs - 1)))
    name cols divs.

(** The state of a fresh session. *)
Definition st0 : State := mkState 1 [].

(** Two datasets with disjoint ranges. *)
Definition ex_low : DataFrame Z := source "a" ["x"] [1; 3]%Z.
Definition ex_high : DataFrame Z := source "b" ["y"] [5; 7]%Z.

(** A dataset and a finer one over the same range. *)
Definition ex_coarse : DataFrame Z := source "a" ["x"] [1; 5]%Z.
Definition ex_fine : DataFrame Z := source "b" ["y"] [1; 3; 5]%Z.

(** A dataset with a single-row partition, and one with a boundary inside
    its range. *)
Definition ex_single_row : DataFrame Z := source "a" ["x"] [1; 1; 3]%Z.
Definition ex_inside : DataFrame Z := source "b" ["y"] [1; 2; 3]%Z.

(** The matrix of the doctest of [require]. *)
Definition doctest_divisions : list Z := [1; 3; 5; 7; 9]%Z.
Definition doctest_parts : list (list (option key)) :=
  [[Some ("a", 0); None];
   [Some ("a", 1); Some ("b", 0)];
   [Some ("a", 2); Some ("b", 1)];
   [None; Some ("b", 2)]].

(** A matrix in which slot 0 is absent in the middle. *)
Definition holed_divisions : list Z := [1; 3; 5; 7]%Z.
Definition holed_parts : list (list (option key)) :=
  [[Some ("a", 0); Some ("b", 0)];
   [None; Some ("b", 1)];
   [Some ("a", 1); Some ("b", 2)]].

(** ** Notions used for the whole alignment matrix *)

(** The test of the inner loop of [align]: the cursor [j] of [df] is not on
    its last boundary and points at the boundary [d]. *)
Definition at_cursor (d : Z) (df : DataFrame Z) (j : nat) : bool :=
  bool_decide (j < length (divisions df) - 1)
  && bool_decide (divisions df !! j = Some d).

(** The entry recorded for [df] in the row of [d], and its cursor after it. *)
Definition cell (d : Z) (df : DataFrame Z) (j : nat) : option key :=
  if at_cursor d df j then Some (_name df, j) else None.

Definition advance (d : Z) (df : DataFrame Z) (j : nat) : nat :=
  if at_cursor d df j then j + 1 else j.

(** A dataset without any boundary. *)
Definition ex_empty : DataFrame Z := source "e" ["z"] [].

(** * Properties *)

(** ** Doctests *)

Example bound_doctest : bound [1; 3; 4; 5; 8; 10; 12]%Z 4 10 = [4; 5; 8; 10]%Z.
Proof. reflexivity. Qed.

Example unique_merge_example :
  unique (merge_sorted [[1; 3; 3; 5]; [2; 3; 7]; [1; 9]])%Z = [1; 2; 3; 5; 7; 9]%Z.
Proof. vm_compute. reflexivity. Qed.

(** ** Binary search on a sorted list *)

Section bisect.
Implicit Types (a : list Z) (x : Z).

Lemma sorted_nth a i j :
  Sorted Z.le a → i ≤ j → j < length a → (nth i a 0%Z ≤ nth j a 0%Z)%Z.
Proof.
  intros Hs%Sorted_StronglySorted; [|intros ???; lia].
  revert i j. induction Hs as [|v a Hs IH Hv]; intros i j Hij Hj; simpl in *; [lia|].
  destruct i as [|i], j as [|j]; try lia.
  - rewrite Forall_forall in Hv. apply Hv, list_elem_of_In, nth_In. lia.
  - apply IH; lia.
Qed.

Lemma mid_bounds lo hi : lo < hi → lo ≤ (lo + hi) / 2 < hi.
Proof.
  intros. split.
  - apply Nat.div_le_lower_bound; lia.
  - apply Nat.Div0.div_lt_upper_bound; lia.
Qed.

Lemma bisect_left_loop_S fuel a x lo hi :
  bisect_left_loop (S fuel) a x lo hi =
  if lo <? hi then
    if (nth ((lo + hi) / 2) a 0%Z <? x)%Z
    then bisect_left_loop fuel a x ((lo + hi) / 2 + 1) hi
    else bisect_left_loop fuel a x lo ((lo + hi) / 2)
  else lo.
Proof. reflexivity. Qed.

Lemma bisect_right_loop_S fuel a x lo hi :
  bisect_right_loop (S fuel) a x lo hi =
  if lo <? hi then
    if (x <? nth ((lo + hi) / 2) a 0%Z)%Z
    then bisect_right_loop fuel a x lo ((lo + hi) / 2)
    else bisect_right_loop fuel a x ((lo + hi) / 2 + 1) hi
  else lo.
Proof. reflexivity. Qed.

Lemma bisect_left_loop_spec a x fuel lo hi :
  Sorted Z.le a → lo ≤ hi → hi ≤ length a → hi - lo ≤ fuel →
  (∀ i, i < lo → (nth i a 0%Z < x)%Z) →
  (∀ i, hi ≤ i → i < length a → (x ≤ nth i a 0%Z)%Z) →
  let r := bisect_left_loop fuel a x lo hi in
  r ≤ length a ∧
  (∀ i, i < r → (nth i a 0%Z < x)%Z) ∧
  (∀ i, r ≤ i → i < length a → (x ≤ nth i a 0%Z)%Z).
Proof.
  intros Hs. revert lo hi.
  induction fuel as [|fuel IH]; intros lo hi Hle Hhi Hfuel Hlo Hge;
    [simpl|rewrite bisect_left_loop_S].
  { assert (lo = hi) as -> by lia. auto. }
  destruct (Nat.ltb_spec lo hi) as [Hlt|Hnlt].
  - pose proof (mid_bounds lo hi Hlt) as [Hm1 Hm2].
    destruct (Z.ltb_spec (nth ((lo + hi) / 2) a 0%Z) x) as [Hc|Hc].
    + apply IH; try lia; [|done].
      intros i Hi. pose proof (sorted_nth a i ((lo + hi) / 2) Hs). lia.
    + apply IH; try lia; [done|].
      intros i Hi Hil. pose proof (sorted_nth a ((lo + hi) / 2) i Hs). lia.
  - assert (lo = hi) as -> by lia. auto.
Qed.

Lemma bisect_right_loop_spec a x fuel lo hi :
  Sorted Z.le a → lo ≤ hi → hi ≤ length a → hi - lo ≤ fuel →
  (∀ i, i < lo → (nth i a 0%Z ≤ x)%Z) →
  (∀ i, hi ≤ i → i < length a → (x < nth i a 0%Z)%Z) →
  let r := bisect_right_loop fuel a x lo hi in
  r ≤ length a ∧
  (∀ i, i < r → (nth i a 0%Z ≤ x)%Z) ∧
  (∀ i, r ≤ i → i < length a → (x < nth i a 0%Z)%Z).
Proof.
  intros Hs. revert lo hi.
  induction fuel as [|fuel IH]; intros lo hi Hle Hhi Hfuel Hlo Hge;
    [simpl|rewrite bisect_right_loop_S].
  { assert (lo = hi) as -> by lia. auto. }
  destruct (Nat.ltb_spec lo hi) as [Hlt|Hnlt].
  - pose proof (mid_bounds lo hi Hlt) as [Hm1 Hm2].
    destruct (Z.ltb_spec x (nth ((lo + hi) / 2) a 0%Z)) as [Hc|Hc].
    + apply IH; try lia; [done|].
      intros i Hi Hil. pose proof (sorted_nth a ((lo + hi) / 2) i Hs). lia.
    + apply IH; try lia; [|done].
      intros i Hi. pose proof (sorted_nth a i ((lo + hi) / 2) Hs). lia.
  - assert (lo = hi) as -> by lia. auto.
Qed.

(** On a sorted list [bisect_left] is the number of items below [x]... *)
Lemma bisect_left_spec a x :
  Sorted Z.le a →
  bisect_left a x ≤ length a ∧
  Forall (λ v, (v < x)%Z) (take (bisect_left a x) a) ∧
  Forall (λ v, (x ≤ v)%Z) (drop (bisect_left a x) a).
Proof.
  intros Hs. unfold bisect_left.
  destruct (bisect_left_loop_spec a x (length a) 0 (length a) Hs)
    as (Hr & Hlt & Hge); try lia.
  split; [done|]. split; apply Forall_lookup; intros i v Hi.
  - apply lookup_take_Some in Hi as [Hi Hir].
    specialize (Hlt i Hir). by rewrite (nth_lookup_Some _ _ _ _ Hi) in Hlt.
  - rewrite lookup_drop in Hi. pose proof (lookup_lt_Some _ _ _ Hi) as Hlen.
    specialize (Hge _ (Nat.le_add_r _ _) Hlen).
    by rewrite (nth_lookup_Some _ _ _ _ Hi) in Hge.
Qed.

(** ... and [bisect_right] the number of items not above [x]. *)
Lemma bisect_right_spec a x :
  Sorted Z.le a →
  bisect_right a x ≤ length a ∧
  Forall (λ v, (v ≤ x)%Z) (take (bisect_right a x) a) ∧
  Forall (λ v, (x < v)%Z) (drop (bisect_right a x) a).
Proof.
  intros Hs. unfold bisect_right.
  destruct (bisect_right_loop_spec a x (length a) 0 (length a) Hs)
    as (Hr & Hlt & Hge); try lia.
  split; [done|]. split; apply Forall_lookup; intros i v Hi.
  - apply lookup_take_Some in Hi as [Hi Hir].
    specialize (Hlt i Hir). by rewrite (nth_lookup_Some _ _ _ _ Hi) in Hlt.
  - rewrite lookup_drop in Hi. pose proof (lookup_lt_Some _ _ _ Hi) as Hlen.
    specialize (Hge _ (Nat.le_add_r _ _) Hlen).
    by rewrite (nth_lookup_Some _ _ _ _ Hi) in Hge.
Qed.

Lemma bisect_left_le_right a l r :
  Sorted Z.le a → (l ≤ r)%Z → bisect_left a l ≤ bisect_right a r.
Proof.
  intros Hs Hlr.
  destruct (bisect_left_spec a l Hs) as (Hl & Hlt & _).
  destruct (bisect_right_spec a r Hs) as (Hr & _ & Hgt).
  destruct (Nat.le_gt_cases (bisect_left a l) (bisect_right a r)) as [|Hlt']; [done|].
  destruct (lookup_lt_is_Some_2 a (bisect_right a r)) as [v Hv]; [lia|].
  rewrite Forall_lookup in Hlt. rewrite Forall_lookup in Hgt.
  assert (v < l)%Z by (apply (Hlt (bisect_right a r)); by apply lookup_take_Some).
  assert (r < v)%Z.
  { apply (Hgt 0). by rewrite lookup_drop, Nat.add_0_r. }
  lia.
Qed.

(** [bound] cuts a sorted list in three: the items below [left], the
    returned slice, and the items above [right]. *)
Lemma bound_split a l r :
  Sorted Z.le a → (l ≤ r)%Z →
  a = take (bisect_left a l) a ++ bound a l r ++ drop (bisect_right a r) a ∧
  Forall (λ v, (v < l)%Z) (take (bisect_left a l) a) ∧
  Forall (λ v, (l ≤ v ≤ r)%Z) (bound a l r) ∧
  Forall (λ v, (r < v)%Z) (drop (bisect_right a r) a).
Proof.
  intros Hs Hlr.
  pose proof (bisect_left_le_right a l r Hs Hlr) as Hle.
  destruct (bisect_left_spec a l Hs) as (Hl & Hlt & Hge).
  destruct (bisect_right_spec a r Hs) as (Hr & Hle' & Hgt).
  unfold bound, slice. repeat split; try done.
  - assert (take (bisect_left a l) a
            = take (bisect_left a l) (take (bisect_right a r) a)) as ->.
    { rewrite take_take. f_equal. lia. }
    by rewrite app_assoc, !take_drop.
  - apply Forall_lookup. intros i v Hi.
    rewrite lookup_drop in Hi. apply lookup_take_Some in Hi as [Hi Hir].
    rewrite Forall_lookup in Hge. rewrite Forall_lookup in Hle'.
    split.
    + apply (Hge i). by rewrite lookup_drop.
    + apply (Hle' (bisect_left a l + i)). by apply lookup_take_Some.
Qed.
End bisect.

(** C8.  For a sorted sequence and [left ≤ right], [bound seq left right] is
    a contiguous slice of [seq]: everything before it is below [left],
    everything after it is above [right], and every item of the slice lies in
    the closed range; so the slice starts at the first item [≥ left] and ends
    at the last item [≤ right].  The doctest is an instance. *)
Theorem bound_is_inclusive_slice (seq : list Z) (left right : Z) :
  Sorted Z.le seq → (left ≤ right)%Z →
  (∃ before after,
      seq = before ++ bound seq left right ++ after ∧
      Forall (λ v, (v < left)%Z) before ∧
      Forall (λ v, (left ≤ v ≤ right)%Z) (bound seq left right) ∧
      Forall (λ v, (right < v)%Z) after) ∧
  bound [1; 3; 4; 5; 8; 10; 12]%Z 4 10 = [4; 5; 8; 10]%Z.
Proof.
  intros Hs Hlr. split; [|reflexivity].
  destruct (bound_split seq left right Hs Hlr) as (? & ? & ? & ?). eauto 10.
Qed.

Lemma bound_is_inclusive_slice_witness :
  ∃ before after,
    [1; 3; 4; 5; 8; 10; 12]%Z = before ++ bound [1; 3; 4; 5; 8; 10; 12]%Z 4 10 ++ after ∧
    Forall (λ v, (v < 4)%Z) before ∧
    Forall (λ v, (4 ≤ v ≤ 10)%Z) (bound [1; 3; 4; 5; 8; 10; 12]%Z 4 10) ∧
    Forall (λ v, (10 < v)%Z) after.
Proof.
  apply (bound_is_inclusive_slice [1; 3; 4; 5; 8; 10; 12]%Z 4 10).
  - repeat constructor; lia.
  - lia.
Defined.

(** ** The common boundary sequence *)

Section common.
Implicit Types (l : list Z) (seen : gset Z) (seqs : list (list Z)).

Lemma merge_sorted_Permutation seqs : merge_sorted seqs ≡ₚ mjoin seqs.
Proof.
  induction seqs as [|l seqs IH]; simpl; [done|].
  by rewrite merge_Permutation, IH.
Qed.

Lemma merge_sorted_Sorted seqs :
  Forall (Sorted Z.le) seqs → Sorted Z.le (merge_sorted seqs).
Proof.
  induction 1; simpl; [constructor|].
  by apply (Sorted_list_merge Z.le).
Qed.

Lemma elem_of_unique_from seen l x :
  x ∈ unique_from seen l ↔ x ∈ l ∧ x ∉ seen.
Proof.
  revert seen. induction l as [|y l IH]; intros seen; simpl.
  - set_solver.
  - destruct (decide (y ∈ seen)).
    + rewrite IH. set_solver.
    + rewrite elem_of_cons, IH. destruct (decide (x = y)); set_solver.
Qed.

Lemma unique_from_NoDup seen l : NoDup (unique_from seen l).
Proof.
  revert seen. induction l as [|y l IH]; intros seen; simpl.
  - constructor.
  - destruct (decide (y ∈ seen)); [done|].
    constructor; [|done]. rewrite elem_of_unique_from. set_solver.
Qed.

Lemma unique_from_increasing seen l :
  Sorted Z.le l → Sorted Z.lt (unique_from seen l).
Proof.
  intros Hs%Sorted_StronglySorted; [|intros ???; lia].
  apply StronglySorted_Sorted. revert seen.
  induction Hs as [|y l Hs IH Hy]; intros seen; simpl; [constructor|].
  destruct (decide (y ∈ seen)); [done|].
  constructor; [done|].
  apply Forall_forall. intros x [Hx Hseen]%elem_of_unique_from.
  rewrite Forall_forall in Hy. specialize (Hy x Hx).
  assert (x ≠ y) by set_solver. lia.
Qed.

Lemma elem_of_unique l x : x ∈ unique l ↔ x ∈ l.
Proof. unfold unique. rewrite elem_of_unique_from. set_solver. Qed.
End common.

(** The common boundaries computed in the first line of [align]. *)
Lemma elem_of_common (dfs : list (DataFrame Z)) (x : Z) :
  x ∈ unique (merge_sorted (divisions <$> dfs)) ↔
  ∃ df, df ∈ dfs ∧ x ∈ divisions df.
Proof.
  rewrite elem_of_unique, merge_sorted_Permutation, list_elem_of_join.
  split.
  - intros (l & Hx & (df & -> & Hdf)%list_elem_of_fmap). eauto.
  - intros (df & Hdf & Hx). exists (divisions df). split; [done|].
    apply list_elem_of_fmap. eauto.
Qed.

Lemma common_increasing (dfs : list (DataFrame Z)) :
  Forall (λ df, Sorted Z.le (divisions df)) dfs →
  Sorted Z.lt (unique (merge_sorted (divisions <$> dfs))).
Proof.
  intros Hs. apply unique_from_increasing, merge_sorted_Sorted.
  by apply Forall_fmap.
Qed.

Lemma common_length (dfs : list (DataFrame Z)) :
  length (unique (merge_sorted (divisions <$> dfs))) =
  size (list_to_set (C := gset Z) (mjoin (divisions <$> dfs))).
Proof.
  rewrite <-(size_list_to_set (C := gset Z) (unique _)) by apply unique_from_NoDup.
  f_equal. apply set_eq. intros x.
  by rewrite !elem_of_list_to_set, elem_of_unique, merge_sorted_Permutation.
Qed.

(** ** [align]: success, repartition targets and number of rows *)

Lemma first_final_ok (l : list Z) :
  l ≠ [] →
  first l = Ok (default 0%Z (head l)) ∧ final l = Ok (default 0%Z (last l)).
Proof.
  intros Hl. unfold final. destruct l as [|x l]; [done|]. split; [done|].
  destruct (last (x :: l)) eqn:E; [done|].
  by apply last_None in E.
Qed.

Lemma bound_each_ok ds dfs :
  Forall (λ df, divisions df ≠ []) dfs → bound_each ds dfs = Ok (targets ds dfs).
Proof.
  induction 1 as [|df dfs Hdf _ IH]; simpl; [done|].
  destruct (first_final_ok _ Hdf) as [-> ->]. simpl. by rewrite IH.
Qed.

Lemma bound_each_raises ds dfs :
  Exists (λ df, divisions df = []) dfs → bound_each ds dfs = Raise IndexError.
Proof.
  induction dfs as [|df dfs IH]; intros Hex; [by apply Exists_nil in Hex|].
  simpl. destruct (divisions df) as [|x l] eqn:E; [done|].
  apply Exists_cons in Hex as [Hex|Hex]; [congruence|].
  destruct (first_final_ok (x :: l)) as [-> ->]; [done|]. simpl.
  by rewrite (IH Hex).
Qed.

Lemma repartition_ok df onto st :
  ∃ df2,
    repartition df onto st
    = (Ok df2, mkState (S (tokens st)) (calls st ++ [Repartition (_name df) onto])) ∧
    divisions df2 = onto ∧ columns df2 = columns df.
Proof. eexists. split; [reflexivity|]. done. Qed.

Lemma repartition_each_ok dfs ontos st :
  length dfs = length ontos →
  ∃ dfs2 st',
    repartition_each dfs ontos st = (Ok dfs2, st') ∧
    divisions <$> dfs2 = ontos ∧
    columns <$> dfs2 = columns <$> dfs ∧
    tokens st' = tokens st + length dfs ∧
    calls st' = calls st ++ zip_with (λ df onto, Repartition (_name df) onto) dfs ontos.
Proof.
  revert ontos st. induction dfs as [|df dfs IH]; intros [|onto ontos] st Hlen;
    simplify_eq/=.
  { exists [], st. by rewrite app_nil_r, Nat.add_0_r. }
  destruct (repartition_ok df onto st) as (df2 & Hrep & Hdiv & Hcol).
  destruct (IH ontos (mkState (S (tokens st)) (calls st ++ [Repartition (_name df) onto])))
    as (dfs2 & st' & Hrest & Hdivs & Hcols & Htok & Hcalls); [done|].
  exists (df2 :: dfs2), st'. unfold mbind, M_mbind, m_bind.
  rewrite Hrep, Hrest. split; [done|].
  rewrite !fmap_cons, Hdiv, Hdivs, Hcol, Hcols, Htok, Hcalls.
  repeat split; simpl; [lia|by rewrite <-app_assoc].
Qed.

Lemma align_rows_length n dfs2 ds inds :
  length (align_rows n dfs2 ds inds) = length ds.
Proof.
  revert inds. induction ds as [|d ds IH]; intros inds; simpl; [done|].
  destruct (align_row n dfs2 d inds). simpl. by rewrite IH.
Qed.

(** [align] returns whenever no input has an empty [divisions]. *)
Lemma align_ok dfs st :
  Forall (λ df, divisions df ≠ []) dfs →
  let ds := unique (merge_sorted (divisions <$> dfs)) in
  ∃ dfs2 st',
    align dfs st
    = (Ok (dfs2, ds, align_rows (length dfs) dfs2 (init ds) (replicate (length dfs) 0)), st') ∧
    divisions <$> dfs2 = targets ds dfs ∧
    columns <$> dfs2 = columns <$> dfs ∧
    tokens st' = tokens st + length dfs ∧
    calls st' = calls st
                ++ zip_with (λ df onto, Repartition (_name df) onto) dfs (targets ds dfs).
Proof.
  intros Hne ds.
  destruct (repartition_each_ok dfs (targets ds dfs) st)
    as (dfs2 & st' & Hrep & Hdivs & Hrest).
  { unfold targets. by rewrite length_fmap. }
  exists dfs2, st'. split; [|done].
  unfold align, mbind, M_mbind, m_bind, lift. fold ds.
  by rewrite (bound_each_ok ds dfs Hne), Hrep.
Qed.

Lemma align_raises dfs st :
  Exists (λ df, divisions df = []) dfs → align dfs st = (Raise IndexError, st).
Proof.
  intros Hex. unfold align, mbind, M_mbind, m_bind, lift.
  by rewrite (bound_each_raises _ dfs Hex).
Qed.

(** ** The alignment matrix of two datasets, column by column *)

Lemma align_rows_two l2 r2 ds jl jr :
  align_rows 2 [l2; r2] ds [jl; jr]
  = zip_with (λ a b, [a; b]) (column l2 ds jl) (column r2 ds jr).
Proof.
  revert jl jr. induction ds as [|d ds IH]; intros jl jr; [done|].
  cbn [align_rows column]. unfold align_row. cbn [seq foldl].
  unfold align_cell at 2. cbn [lookup list_lookup].
  destruct (bool_decide (jl < _) && bool_decide (divisions l2 !! jl = _));
    unfold align_cell; cbn [lookup list_lookup insert list_insert app];
    destruct (bool_decide (jr < _) && bool_decide (divisions r2 !! jr = _));
    cbn [zip_with]; by rewrite IH.
Qed.

Section column.
Context (df : DataFrame Z).
Implicit Types (ds pre post : list Z) (j : nat).

Lemma column_length ds j : length (column df ds j) = length ds.
Proof.
  revert j. induction ds as [|d ds IH]; intros j; simpl; [done|].
  destruct (_ && _); simpl; by rewrite IH.
Qed.

Lemma column_take ds j n : column df (take n ds) j = take n (column df ds j).
Proof.
  revert j n. induction ds as [|d ds IH]; intros j [|n]; simpl; try done.
  destruct (_ && _); simpl; by rewrite IH.
Qed.

(** Past the last partition the cursor never matches again. *)
Lemma column_done ds j :
  ¬ j < length (divisions df) - 1 → column df ds j = replicate (length ds) None.
Proof.
  intros Hj. induction ds as [|d ds IH]; simpl; [done|].
  rewrite bool_decide_eq_false_2 by done. simpl. by rewrite IH.
Qed.

(** Before its first boundary is met the cursor does not move. *)
Lemma column_before pre ds :
  (∀ v, head (divisions df) = Some v → v ∉ pre) →
  column df (pre ++ ds) 0 = replicate (length pre) None ++ column df ds 0.
Proof.
  intros Hpre. induction pre as [|d pre IH]; simpl; [done|].
  rewrite IH by (intros v Hv; specialize (Hpre v Hv); set_solver).
  destruct (decide (divisions df !! 0 = Some d)) as [Hd|Hd].
  - exfalso. apply (Hpre d); [|left]. by rewrite head_lookup.
  - rewrite (bool_decide_eq_false_2 _ Hd), andb_false_r. done.
Qed.

(** Along its own boundaries the cursor advances at every step but the
    last one. *)
Lemma column_along post j :
  j ≤ length (divisions df) - 1 →
  column df (drop j (divisions df) ++ post) j
  = refs (_name df) j (length (divisions df) - 1 - j)
    ++ replicate (length (drop j (divisions df) ++ post)
                  - (length (divisions df) - 1 - j)) None.
Proof.
  remember (length (divisions df) - 1 - j) as k eqn:Hk.
  revert j Hk. induction k as [|k IH]; intros j Hk Hj.
  - rewrite column_done by lia. by rewrite Nat.sub_0_r.
  - destruct (lookup_lt_is_Some_2 (divisions df) j) as [v Hv]; [lia|].
    rewrite (drop_S _ _ _ Hv). cbn [app column].
    rewrite bool_decide_eq_true_2 by lia.
    rewrite bool_decide_eq_true_2 by done. cbn [andb].
    replace (j + 1) with (S j) by lia.
    rewrite IH by lia. unfold refs. cbn [seq fmap list_fmap length].
    rewrite Nat.sub_succ. done.
Qed.

(** When the common boundaries are [pre ++ divisions df ++ post], the
    column of [df] over [init] of them is: absent on [pre], one reference
    per partition, then absent again. *)
Lemma column_spec pre post :
  divisions df ≠ [] →
  (∀ v, head (divisions df) = Some v → v ∉ pre) →
  column df (init (pre ++ divisions df ++ post)) 0
  = replicate (length pre) None
    ++ refs (_name df) 0 (length (divisions df) - 1)
    ++ replicate (length post) None.
Proof.
  intros Hne Hpre. unfold init. rewrite column_take, column_before by done.
  pose proof (column_along post 0) as Halong. rewrite drop_0 in Halong.
  rewrite Halong by lia. clear Halong.
  assert (length (divisions df) ≠ 0) by (by destruct (divisions df)).
  rewrite !length_app, Nat.sub_0_r.
  replace (length (divisions df) + length post - (length (divisions df) - 1))
    with (length post + 1) by lia.
  rewrite replicate_add, !app_assoc.
  rewrite take_app_length'; [done|].
  rewrite !length_app, !length_replicate. unfold refs.
  rewrite length_fmap, length_seq. lia.
Qed.
End column.

(** ** Strictly increasing lists *)

Lemma increasing_le (l : list Z) : Sorted Z.lt l → Sorted Z.le l.
Proof.
  induction 1 as [|x l Hs IH Hx]; constructor; [done|].
  destruct Hx; constructor. lia.
Qed.

Lemma increasing_strongly (l : list Z) : Sorted Z.lt l → StronglySorted Z.lt l.
Proof. apply Sorted_StronglySorted. intros ???; lia. Qed.

Lemma increasing_NoDup (l : list Z) : Sorted Z.lt l → NoDup l.
Proof.
  intros Hs%increasing_strongly.
  induction Hs as [|x l Hs IH Hx]; constructor; [|done].
  rewrite Forall_forall in Hx. intros Hin. specialize (Hx x Hin). lia.
Qed.

(** Two strictly increasing lists with the same items are equal. *)
Lemma increasing_ext (l1 l2 : list Z) :
  Sorted Z.lt l1 → Sorted Z.lt l2 → (∀ x, x ∈ l1 ↔ x ∈ l2) → l1 = l2.
Proof.
  intros H1 H2 Hx.
  apply (Sorted_unique_strong Z.lt); try done.
  - intros; lia.
  - apply NoDup_Permutation; auto using increasing_NoDup.
Qed.

Lemma increasing_app (l1 l2 : list Z) :
  Sorted Z.lt l1 → Sorted Z.lt l2 →
  (∀ x y, x ∈ l1 → y ∈ l2 → (x < y)%Z) → Sorted Z.lt (l1 ++ l2).
Proof.
  intros H1 H2 H12. apply StronglySorted_Sorted, StronglySorted_app_2;
    auto using increasing_strongly.
Qed.

Lemma increasing_app_inv (l1 l2 l3 : list Z) :
  Sorted Z.lt (l1 ++ l2 ++ l3) → Sorted Z.lt l2.
Proof.
  intros Hs%increasing_strongly.
  apply StronglySorted_Sorted.
  by apply StronglySorted_app_1_r, StronglySorted_app_1_l in Hs.
Qed.

Lemma two_items {A} (l : list A) x y : x ∈ l → y ∈ l → x ≠ y → 2 ≤ length l.
Proof.
  destruct l as [|a [|b l]]; simpl; [set_solver| |lia].
  rewrite !list_elem_of_singleton. congruence.
Qed.

(** In a sorted list every item lies between the first and the last one. *)
Lemma sorted_between (l : list Z) lo hi x :
  Sorted Z.le l → head l = Some lo → last l = Some hi → x ∈ l → (lo ≤ x ≤ hi)%Z.
Proof.
  intros Hs Hlo Hhi (i & Hi)%list_elem_of_lookup_1.
  pose proof (lookup_lt_Some _ _ _ Hi) as Hlen.
  rewrite head_lookup in Hlo. rewrite last_lookup in Hhi.
  pose proof (sorted_nth l 0 i Hs ltac:(lia) Hlen) as H1.
  pose proof (sorted_nth l i (pred (length l)) Hs ltac:(lia) ltac:(lia)) as H2.
  rewrite (nth_lookup_Some _ _ _ _ Hi) in H1, H2.
  rewrite (nth_lookup_Some _ _ _ _ Hlo) in H1.
  rewrite (nth_lookup_Some _ _ _ _ Hhi) in H2. lia.
Qed.

Lemma bound_elem (a : list Z) l r x :
  Sorted Z.le a → (l ≤ r)%Z → x ∈ bound a l r ↔ x ∈ a ∧ (l ≤ x ≤ r)%Z.
Proof.
  intros Hs Hlr. destruct (bound_split a l r Hs Hlr) as (Ha & Hpre & Hmid & Hpost).
  rewrite Forall_forall in Hpre, Hmid, Hpost. split.
  - intros Hx. split; [|by apply Hmid]. rewrite Ha. set_solver.
  - intros [Hx Hr]. rewrite Ha, !elem_of_app in Hx.
    destruct Hx as [Hx|[Hx|Hx]]; [|done|].
    + specialize (Hpre x Hx). lia.
    + specialize (Hpost x Hx). lia.
Qed.

(** ** What [align] does for one input

    [ds] stands for the common boundaries; [lo] and [hi] are the first and
    last boundary of an input whose boundaries all occur in [ds]. *)

Lemma bound_common (ds : list Z) lo hi :
  Sorted Z.lt ds → lo ∈ ds → hi ∈ ds → (lo ≤ hi)%Z →
  ∃ pre post,
    ds = pre ++ bound ds lo hi ++ post ∧
    bound ds lo hi ≠ [] ∧
    (∀ v, head (bound ds lo hi) = Some v → v ∉ pre) ∧
    Sorted Z.lt (bound ds lo hi) ∧
    head (bound ds lo hi) = Some lo ∧ last (bound ds lo hi) = Some hi ∧
    ((lo < hi)%Z → 2 ≤ length (bound ds lo hi)).
Proof.
  intros Hs Hlo Hhi Hle.
  pose proof (increasing_le _ Hs) as Hs'.
  destruct (bound_split ds lo hi Hs' Hle) as (Hds & Hpre & Hmid & Hpost).
  pose proof (proj2 (bound_elem ds lo hi lo Hs' Hle) ltac:(split; [done|lia])) as Hlo'.
  pose proof (proj2 (bound_elem ds lo hi hi Hs' Hle) ltac:(split; [done|lia])) as Hhi'.
  assert (Sorted Z.lt (bound ds lo hi)) as Hinc.
  { rewrite Hds in Hs. by apply increasing_app_inv in Hs. }
  rewrite Forall_forall in Hpre, Hmid.
  assert (head (bound ds lo hi) = Some lo) as Hhead.
  { destruct (bound ds lo hi) as [|v b] eqn:E; [set_solver|]. simpl. f_equal.
    apply increasing_strongly, StronglySorted_cons in Hinc as [Hv _].
    rewrite Forall_forall in Hv. apply elem_of_cons in Hlo' as [->|Hin]; [done|].
    specialize (Hv _ Hin). specialize (Hmid v ltac:(left)). lia. }
  assert (last (bound ds lo hi) = Some hi) as Hlast.
  { destruct (last (bound ds lo hi)) as [v|] eqn:E;
      [|apply last_None in E; rewrite E in Hhi'; set_solver].
    f_equal. apply last_Some in E as [b E]. rewrite E in *.
    apply elem_of_app in Hhi' as [Hin|Hin%list_elem_of_singleton]; [|done].
    apply increasing_strongly in Hinc.
    pose proof (StronglySorted_app_1_elem_of _ _ _ hi v Hinc Hin ltac:(left)).
    specialize (Hmid v ltac:(set_solver)). lia. }
  exists (take (bisect_left ds lo) ds), (drop (bisect_right ds hi) ds).
  repeat split; try done.
  - intros E. rewrite E in Hlo'. set_solver.
  - intros v Hv Hin. rewrite Hhead in Hv. simplify_eq.
    specialize (Hpre _ Hin). simpl in Hpre. lia.
  - intros Hlt. apply (two_items _ lo hi); [done..|lia].
Qed.

(** ** Re-deriving an input's boundaries from the alignment matrix *)

Lemma positions_app j c1 c2 :
  positions j (c1 ++ c2) = positions j c1 ++ positions (j + length c1) c2.
Proof.
  revert j. induction c1 as [|c c1 IH]; intros j; simpl.
  - by rewrite Nat.add_0_r.
  - rewrite IH. replace (S j + length c1) with (j + S (length c1)) by lia.
    by destruct c.
Qed.

Lemma positions_absent j n : positions j (replicate n None) = [].
Proof. revert j. induction n; intros j; simpl; auto. Qed.

Lemma positions_refs j name s n : positions j (refs name s n) = seq j n.
Proof.
  revert j s. induction n as [|n IH]; intros j s; [done|].
  unfold refs in *. simpl. by rewrite IH.
Qed.

Lemma present_zip_l j (c1 c2 : list (option key)) :
  length c1 = length c2 →
  present_from 0 j (zip_with (λ a b, [a; b]) c1 c2) = Ok (positions j c1).
Proof.
  revert j c2. induction c1 as [|a c1 IH]; intros j [|b c2] Hlen; simplify_eq/=; [done|].
  rewrite IH by done. by destruct a.
Qed.

Lemma present_zip_r j (c1 c2 : list (option key)) :
  length c1 = length c2 →
  present_from 1 j (zip_with (λ a b, [a; b]) c1 c2) = Ok (positions j c2).
Proof.
  revert j c2. induction c1 as [|a c1 IH]; intros j [|b c2] Hlen; simplify_eq/=; [done|].
  rewrite IH by done. by destruct b.
Qed.

Lemma omap_lookup_seq {A} (l : list A) p m :
  p + m ≤ length l → omap (λ i, l !! i) (seq p m) = take m (drop p l).
Proof.
  revert p. induction m as [|m IH]; intros p Hlen; [done|].
  destruct (lookup_lt_is_Some_2 l p) as [x Hx]; [lia|].
  cbn [seq omap list_omap]. rewrite Hx. rewrite (drop_S _ _ _ Hx). cbn [take].
  f_equal. apply IH. lia.
Qed.

Lemma rederive_rows (ds pre mid post : list Z) n :
  ds = pre ++ mid ++ post → S n = length mid → 0 < n →
  match last (seq (length pre) n) with
  | Some r => omap (λ i, ds !! i) (seq (length pre) n ++ [r + 1])
  | None => []
  end = mid.
Proof.
  intros -> Hn Hpos. destruct n as [|n]; [lia|].
  rewrite seq_S at 1. rewrite last_snoc.
  replace (seq (length pre) (S n) ++ [length pre + n + 1])
    with (seq (length pre) (S (S n))).
  2:{ rewrite (seq_S (S n)). do 2 f_equal. lia. }
  rewrite omap_lookup_seq by (rewrite !length_app; lia).
  rewrite drop_app_length, Hn. by rewrite take_app_length.
Qed.

(** ** The alignment of two datasets *)

Lemma aligned_slot_intro ds df df2 :
  Sorted Z.lt ds → Sorted Z.le (divisions df) → divisions df ≠ [] →
  (∀ x, x ∈ divisions df → x ∈ ds) →
  divisions df2 = bound ds (default 0%Z (head (divisions df)))
                           (default 0%Z (last (divisions df))) →
  aligned_slot ds df df2.
Proof.
  intros Hds Hs Hne Hsub Hdf2.
  destruct (head (divisions df)) as [lo|] eqn:Hlo;
    [|by apply head_None in Hlo].
  destruct (last (divisions df)) as [hi|] eqn:Hhi;
    [|by apply last_None in Hhi].
  simpl in Hdf2.
  assert (lo ∈ divisions df) as Hlo' by (by apply head_Some_elem_of).
  assert (hi ∈ divisions df) as Hhi' by (by apply last_Some_elem_of).
  pose proof (sorted_between _ lo hi hi Hs Hlo Hhi Hhi') as Hle.
  destruct (bound_common ds lo hi Hds (Hsub _ Hlo') (Hsub _ Hhi') ltac:(lia))
    as (pre & post & Hsplit & Hne' & Hpre & Hinc & Hhead & Hlast & Htwo).
  rewrite <-Hdf2 in *.
  exists pre, post, lo, hi.
  do 4 (split; [done|]).
  split; [rewrite Hsplit at 1; by apply column_spec|].
  do 3 (split; [done|]). split; [|done].
  intros x. rewrite Hdf2. apply bound_elem; [by apply increasing_le|lia].
Qed.

Lemma align_pair lhs rhs st :
  Sorted Z.le (divisions lhs) → Sorted Z.le (divisions rhs) →
  divisions lhs ≠ [] → divisions rhs ≠ [] →
  let ds := unique (merge_sorted [divisions lhs; divisions rhs]) in
  ∃ lhs2 rhs2 st',
    align [lhs; rhs] st
    = (Ok ([lhs2; rhs2], ds,
           zip_with (λ a b, [a; b]) (column lhs2 (init ds) 0) (column rhs2 (init ds) 0)),
       st') ∧
    aligned_slot ds lhs lhs2 ∧ aligned_slot ds rhs rhs2 ∧
    columns lhs2 = columns lhs ∧ columns rhs2 = columns rhs ∧
    tokens st' = tokens st + 2 ∧
    calls st' = calls st ++ [Repartition (_name lhs) (divisions lhs2);
                             Repartition (_name rhs) (divisions rhs2)].
Proof.
  intros HsL HsR HneL HneR ds.
  destruct (align_ok [lhs; rhs] st) as (dfs2 & st' & Halign & Hdivs & Hcols & Htok & Hcalls).
  { by repeat constructor. }
  fold ds in Halign, Hdivs, Hcalls.
  unfold targets in Hdivs, Hcalls. cbn [fmap list_fmap] in Hdivs, Hcols, Hcalls.
  destruct dfs2 as [|lhs2 [|rhs2 [|? ?]]]; try discriminate Hdivs.
  injection Hdivs as HdL HdR. injection Hcols as HcL HcR.
  assert (Sorted Z.lt ds) as Hds.
  { apply (common_increasing [lhs; rhs]). by repeat constructor. }
  assert (∀ df x, df ∈ [lhs; rhs] → x ∈ divisions df → x ∈ ds) as Hsub.
  { intros df x Hdf Hx. apply (elem_of_common [lhs; rhs]). eauto. }
  cbn [length replicate] in Halign.
  exists lhs2, rhs2, st'. rewrite Halign, align_rows_two.
  split; [done|].
  split; [apply aligned_slot_intro; try done; intros x; apply Hsub; set_solver|].
  split; [apply aligned_slot_intro; try done; intros x; apply Hsub; set_solver|].
  do 3 (split; [done|]).
  by rewrite Hcalls, HdL, HdR.
Qed.

Lemma spans_nonempty df : spans df → divisions df ≠ [].
Proof. intros (lo & hi & Hlo & _) E. by rewrite E in Hlo. Qed.

Lemma positions_column p name n q :
  positions 0 (replicate p None ++ refs name 0 n ++ replicate q None) = seq p n.
Proof.
  rewrite !positions_app, !positions_absent, positions_refs, length_replicate.
  by rewrite app_nil_r.
Qed.

Lemma rederive_slot ds df df2 (rows : list nat) :
  aligned_slot ds df df2 → spans df →
  rows = positions 0 (column df2 (init ds) 0) →
  match last rows with
  | Some r => omap (λ i, ds !! i) (rows ++ [r + 1])
  | None => []
  end = divisions df2.
Proof.
  intros (pre & post & lo & hi & Hlo & Hhi & _ & Hds & Hcol & _ & _ & _ & _ & Htwo)
         (lo' & hi' & Hlo' & Hhi' & Hlt) ->.
  assert (lo' = lo) as -> by congruence. assert (hi' = hi) as -> by congruence.
  specialize (Htwo Hlt).
  rewrite Hcol, positions_column.
  apply (rederive_rows ds pre _ post); [done|lia..].
Qed.

(** How the boundaries an input is repartitioned onto relate to its own. *)
Lemma aligned_slot_own ds df df2 other :
  aligned_slot ds df df2 → Sorted Z.le (divisions df) →
  (∀ x, x ∈ ds ↔ x ∈ divisions df ∨ x ∈ divisions other) →
  (∀ x, x ∈ divisions df → x ∈ divisions df2) ∧
  (covers df other → ∀ x, x ∈ divisions df2 → x ∈ divisions df) ∧
  (divisions df2 = divisions df ↔ Sorted Z.lt (divisions df) ∧ covers df other).
Proof.
  intros (pre & post & lo & hi & Hlo & Hhi & _ & _ & _ & Hinc & _ & _ & Hin & _) Hs Hds.
  assert (∀ x, x ∈ divisions df → x ∈ divisions df2) as Hown.
  { intros x Hx. apply Hin. split; [apply Hds; by left|].
    by apply (sorted_between (divisions df)). }
  assert (covers df other → ∀ x, x ∈ divisions df2 → x ∈ divisions df) as Hback.
  { intros Hcov x [[Hx|Hx]%Hds Hr]%Hin; [done|]. by apply (Hcov lo hi). }
  split; [done|]. split; [done|]. split.
  - intros Heq. rewrite <-Heq. split; [done|].
    intros lo' hi' x Hlo' Hhi' Hx Hr.
    assert (lo' = lo) as -> by congruence. assert (hi' = hi) as -> by congruence.
    rewrite <-Heq. apply Hin. split; [|done]. apply Hds. by right.
  - intros [Hinc' Hcov]. apply increasing_ext; try done.
    intros x. split; [by apply Hback|apply Hown].
Qed.

(** C4 (amended).  For two datasets with non-decreasing boundaries, each
    with its first boundary below its last, [align] returns, and re-deriving
    the boundaries of a slot from the matrix gives the boundaries the input
    was repartitioned onto.  These contain every boundary of the input, and
    they are the input's own [divisions] exactly when those are strictly
    increasing and the other input has no further boundary inside their
    range. *)
Theorem align_rederives_repartitioned (lhs rhs : DataFrame Z) (st : State) :
  Sorted Z.le (divisions lhs) → Sorted Z.le (divisions rhs) →
  spans lhs → spans rhs →
  ∃ lhs2 rhs2 ds parts st',
    align [lhs; rhs] st = (Ok ([lhs2; rhs2], ds, parts), st') ∧
    rederive 0 ds parts = divisions lhs2 ∧
    rederive 1 ds parts = divisions rhs2 ∧
    (∀ x, x ∈ divisions lhs → x ∈ divisions lhs2) ∧
    (∀ x, x ∈ divisions rhs → x ∈ divisions rhs2) ∧
    (divisions lhs2 = divisions lhs ↔ Sorted Z.lt (divisions lhs) ∧ covers lhs rhs) ∧
    (divisions rhs2 = divisions rhs ↔ Sorted Z.lt (divisions rhs) ∧ covers rhs lhs).
Proof.
  intros HsL HsR HspL HspR.
  destruct (align_pair lhs rhs st HsL HsR (spans_nonempty _ HspL) (spans_nonempty _ HspR))
    as (lhs2 & rhs2 & st' & Halign & HslotL & HslotR & _).
  set (ds := unique (merge_sorted [divisions lhs; divisions rhs])) in *.
  assert (∀ x, x ∈ ds ↔ x ∈ divisions lhs ∨ x ∈ divisions rhs) as Hds.
  { intros x. unfold ds. rewrite (elem_of_common [lhs; rhs]). set_solver. }
  destruct (aligned_slot_own ds lhs lhs2 rhs HslotL HsL Hds) as (HownL & _ & HeqL).
  destruct (aligned_slot_own ds rhs rhs2 lhs HslotR HsR) as (HownR & _ & HeqR).
  { intros x. rewrite Hds. tauto. }
  eexists lhs2, rhs2, ds, _, st'. split; [exact Halign|].
  assert (length (column lhs2 (init ds) 0) = length (column rhs2 (init ds) 0)) as Hlen.
  { by rewrite !column_length. }
  unfold rederive, present.
  rewrite (present_zip_l _ _ _ Hlen), (present_zip_r _ _ _ Hlen).
  split; [by apply (rederive_slot ds lhs)|].
  split; [by apply (rederive_slot ds rhs)|]. done.
Qed.

(** ** Two datasets with disjoint ranges *)

Lemma app_decomp_length {A} (pre mid post pre' post' : list A) :
  NoDup (pre ++ mid ++ post) → mid ≠ [] →
  pre ++ mid ++ post = pre' ++ mid ++ post' →
  length pre = length pre' ∧ length post = length post'.
Proof.
  intros Hnd Hmid Heq. destruct mid as [|x mid]; [done|].
  assert (length pre = length pre') as Hpre.
  { apply (NoDup_lookup _ _ _ x Hnd).
    - by rewrite lookup_app_r, Nat.sub_diag.
    - rewrite Heq. by rewrite lookup_app_r, Nat.sub_diag. }
  split; [done|].
  apply (f_equal length) in Heq. rewrite !length_app in Heq. lia.
Qed.

Lemma zip_with_gap {A B} (f : option A → option A → B) (x y : list (option A)) n1 n2 :
  length x = n1 → length y = n2 →
  zip_with f (x ++ replicate (n2 + 1) None) (replicate (n1 + 1) None ++ y)
  = zip_with f x (replicate n1 None) ++ [f None None] ++ zip_with f (replicate n2 None) y.
Proof.
  intros Hx Hy.
  rewrite (replicate_add n1 1), (Nat.add_comm n2 1), (replicate_add 1 n2), <-app_assoc.
  rewrite zip_with_app by (by rewrite length_replicate).
  by rewrite zip_with_app by done.
Qed.

(** The two columns when [below] lies entirely under [above]. *)
Lemma disjoint_columns ds (below above below2 above2 : DataFrame Z) hi lo :
  aligned_slot ds below below2 → aligned_slot ds above above2 →
  Sorted Z.le (divisions below) → Sorted Z.le (divisions above) →
  Sorted Z.lt ds →
  (∀ x, x ∈ ds ↔ x ∈ divisions below ∨ x ∈ divisions above) →
  last (divisions below) = Some hi → head (divisions above) = Some lo → (hi < lo)%Z →
  ∃ n1 n2,
    length (divisions below2) = S n1 ∧ length (divisions above2) = S n2 ∧
    ds = divisions below2 ++ divisions above2 ∧
    column below2 (init ds) 0 = refs (_name below2) 0 n1 ++ replicate (n2 + 1) None ∧
    column above2 (init ds) 0 = replicate (n1 + 1) None ++ refs (_name above2) 0 n2 ∧
    (Sorted Z.lt (divisions below) → divisions below2 = divisions below) ∧
    (Sorted Z.lt (divisions above) → divisions above2 = divisions above).
Proof.
  intros HslotB HslotA HsB HsA Hinc Hds Hhi Hlo Hlt.
  assert (∀ x y, x ∈ divisions below → y ∈ divisions above → (x < y)%Z) as Hsep.
  { intros x y Hx Hy.
    destruct (head (divisions below)) as [lo'|] eqn:Hlo';
      [|apply head_None in Hlo'; rewrite Hlo' in Hx; set_solver].
    destruct (last (divisions above)) as [hi'|] eqn:Hhi';
      [|apply last_None in Hhi'; rewrite Hhi' in Hy; set_solver].
    pose proof (sorted_between _ _ _ x HsB Hlo' Hhi Hx).
    pose proof (sorted_between _ _ _ y HsA Hlo Hhi' Hy). lia. }
  assert (covers below above) as HcovB.
  { intros lo' hi' x Hlo' Hhi' Hx Hr. assert (hi' = hi) as -> by congruence.
    pose proof (Hsep hi x (last_Some_elem_of _ _ Hhi) Hx). lia. }
  assert (covers above below) as HcovA.
  { intros lo' hi' x Hlo' Hhi' Hx Hr. assert (lo' = lo) as -> by congruence.
    pose proof (Hsep x lo Hx (head_Some_elem_of _ _ Hlo)). lia. }
  destruct (aligned_slot_own ds below below2 above HslotB HsB Hds)
    as (HownB & HbackB & HeqB).
  destruct (aligned_slot_own ds above above2 below HslotA HsA)
    as (HownA & HbackA & HeqA); [intros x; rewrite Hds; tauto|].
  specialize (HbackB HcovB). specialize (HbackA HcovA).
  destruct HslotB as (preB & postB & _ & _ & _ & _ & _ & HsplitB & HcolB & HincB & _).
  destruct HslotA as (preA & postA & _ & _ & _ & _ & _ & HsplitA & HcolA & HincA & _).
  assert (ds = divisions below2 ++ divisions above2) as Hcat.
  { apply increasing_ext; [done|apply increasing_app; auto|].
    intros x. rewrite elem_of_app, Hds. split; (intros [?|?]; [left|right]); auto. }
  assert (divisions below2 ≠ []) as HneB.
  { intros E. pose proof (HownB hi (last_Some_elem_of _ _ Hhi)) as Hin.
    rewrite E in Hin. set_solver. }
  assert (divisions above2 ≠ []) as HneA.
  { intros E. pose proof (HownA lo (head_Some_elem_of _ _ Hlo)) as Hin.
    rewrite E in Hin. set_solver. }
  pose proof (increasing_NoDup _ Hinc) as Hnd.
  destruct (app_decomp_length preB (divisions below2) postB [] (divisions above2))
    as [HpB HqB]; [by rewrite <-HsplitB|done|by rewrite <-HsplitB|].
  destruct (app_decomp_length preA (divisions above2) postA (divisions below2) [])
    as [HpA HqA]; [by rewrite <-HsplitA|done|by rewrite <-HsplitA, app_nil_r|].
  destruct (divisions below2) as [|b dB] eqn:EB; [done|].
  destruct (divisions above2) as [|a dA] eqn:EA; [done|].
  exists (length dB), (length dA).
  do 3 (split; [done|]).
  rewrite HcolB, HcolA, HpB, HqB, HpA, HqA. simpl.
  rewrite !Nat.sub_0_r, app_nil_r, !Nat.add_1_r.
  do 2 (split; [done|]).
  split; intros Hstrict; [apply HeqB|apply HeqA]; done.
Qed.

(** ** Running the builders *)

Lemma bind_ok {A B} (m : M A) (f : A → M B) st a st' :
  m st = (Ok a, st') → (m ≫= f) st = f a st'.
Proof. intros Hm. unfold mbind, M_mbind, m_bind. by rewrite Hm. Qed.

Lemma bind_raise {A B} (m : M A) (f : A → M B) st e st' :
  m st = (Raise e, st') → (m ≫= f) st = (Raise e, st').
Proof. intros Hm. unfold mbind, M_mbind, m_bind. by rewrite Hm. Qed.

Lemma lift_bind {A B} (a : A) (f : A → M B) st : (lift (Ok a) ≫= f) st = f a st.
Proof. reflexivity. Qed.

Lemma lift_raise_bind {A B} e (f : A → M B) st :
  (lift (Raise e) ≫= f) st = (Raise e, st).
Proof. reflexivity. Qed.

Lemma next_token_bind {B} (f : string → M B) st :
  (next_token ≫= f) st
  = f ("-" +:+ pretty (tokens st)) (mkState (S (tokens st)) (calls st)).
Proof. reflexivity. Qed.

Lemma join_tasks_ok name lhs rhs how lsuffix rsuffix i parts :
  Forall (λ row : list (option key), length row = 2) parts →
  join_tasks name lhs rhs how lsuffix rsuffix i parts
  = Ok (imap (λ k row, ((name, i + k), row_task lhs rhs how lsuffix rsuffix row)) parts).
Proof.
  intros Hrows. revert i.
  induction Hrows as [|row parts Hrow _ IH]; intros i; [done|].
  destruct row as [|a [|b [|? ?]]]; try discriminate Hrow.
  cbn [join_tasks]. rewrite IH. cbn [mbind res_mbind res_bind mret res_ret imap].
  do 2 f_equal; [by rewrite Nat.add_0_r|].
  apply imap_ext. intros k row _. cbn. do 2 f_equal. lia.
Qed.

Lemma pair_rows (c1 c2 : list (option key)) :
  Forall (λ row : list (option key), length row = 2) (zip_with (λ a b, [a; b]) c1 c2).
Proof.
  revert c2. induction c1 as [|a c1 IH]; intros [|b c2]; simpl; constructor; auto.
Qed.

(** [join_indexed_dataframes] step by step, once [align], the table lookup,
    [require] and the schema inference are known to return. *)
Lemma join_indexed_run `{Pandas} lhs rhs how lsuffix rsuffix st
    lhs2 rhs2 ds parts st1 req ds' parts' cols :
  align [lhs; rhs] st = (Ok ([lhs2; rhs2], ds, parts), st1) →
  required !! how = Some req →
  require ds parts (Some req) = Ok (ds', parts') →
  Forall (λ row : list (option key), length row = 2) parts' →
  join_columns (columns lhs2) (columns rhs2) how lsuffix rsuffix = Ok cols →
  let name := "join-indexed" +:+ "-" +:+ pretty (tokens st1) in
  join_indexed_dataframes lhs rhs how lsuffix rsuffix st
  = (Ok (mkDataFrame
           (merge [dask lhs2; dask rhs2;
                   list_to_map (imap (λ k row, ((name, 0 + k),
                                  row_task lhs2 rhs2 how lsuffix rsuffix row)) parts')])
           name cols ds'),
     mkState (S (tokens st1)) (calls st1)).
Proof.
  intros Halign Hreq Hrequire Hrows Hcols name.
  unfold join_indexed_dataframes.
  rewrite (bind_ok _ _ _ _ _ Halign). cbv beta iota.
  rewrite lift_bind. cbv beta iota.
  unfold getitem. rewrite Hreq, lift_bind, Hrequire, lift_bind. cbv beta iota.
  rewrite next_token_bind. cbv zeta. fold name.
  rewrite (join_tasks_ok name _ _ _ _ _ 0 _ Hrows), lift_bind, Hcols, lift_bind.
  done.
Qed.

Lemma one_sided_left name s n :
  Forall one_sided (zip_with (λ a b, [a; b]) (refs name s n) (replicate n None)).
Proof.
  revert s. induction n as [|n IH]; intros s; [constructor|].
  unfold refs in *. simpl. constructor; [|apply IH]. exists (name, s). by left.
Qed.

Lemma one_sided_right name s n :
  Forall one_sided (zip_with (λ a b, [a; b]) (replicate n None) (refs name s n)).
Proof.
  revert s. induction n as [|n IH]; intros s; [constructor|].
  unfold refs in *. simpl. constructor; [|apply IH]. exists (name, s). by right.
Qed.

Lemma refs_length name s n : length (refs name s n) = n.
Proof. unfold refs. by rewrite length_fmap, length_seq. Qed.

Lemma required_outer : required !! "outer" = Some [].
Proof. vm_compute. reflexivity. Qed.

(** C2 (amended).  For two datasets with non-decreasing boundaries and
    disjoint ranges, whenever the schema inference returns: the alignment
    matrix is made of one-sided rows around exactly one row in which both
    slots are absent (the interval between the two ranges), and the outer
    join has one partition more than the two repartitioned inputs together.
    An input with strictly increasing boundaries is repartitioned onto its
    own boundaries, so that for such inputs the count is the sum of their
    partition counts plus one. *)
Theorem outer_join_disjoint `{Pandas} (lhs rhs : DataFrame Z)
    (lsuffix rsuffix : string) (cols : list string) (st : State) :
  Sorted Z.le (divisions lhs) → Sorted Z.le (divisions rhs) →
  disjoint_ranges lhs rhs →
  join_columns (columns lhs) (columns rhs) "outer" lsuffix rsuffix = Ok cols →
  ∃ lhs2 rhs2 ds top bottom st1 out st2,
    align [lhs; rhs] st
    = (Ok ([lhs2; rhs2], ds, top ++ [[None; None]] ++ bottom), st1) ∧
    Forall one_sided top ∧ Forall one_sided bottom ∧
    Z.of_nat (length top + length bottom) = (npartitions lhs2 + npartitions rhs2)%Z ∧
    join_indexed_dataframes lhs rhs "outer" lsuffix rsuffix st = (Ok out, st2) ∧
    divisions out = ds ∧
    npartitions out = (npartitions lhs2 + npartitions rhs2 + 1)%Z ∧
    (Sorted Z.lt (divisions lhs) → divisions lhs2 = divisions lhs) ∧
    (Sorted Z.lt (divisions rhs) → divisions rhs2 = divisions rhs).
Proof.
  intros HsL HsR (lo1 & hi1 & lo2 & hi2 & Hlo1 & Hhi1 & Hlo2 & Hhi2 & Hdisj) Hcols.
  assert (divisions lhs ≠ []) as HneL by (intros E; by rewrite E in Hlo1).
  assert (divisions rhs ≠ []) as HneR by (intros E; by rewrite E in Hlo2).
  destruct (align_pair lhs rhs st HsL HsR HneL HneR)
    as (lhs2 & rhs2 & st1 & Halign & HslotL & HslotR & HcL & HcR & _).
  set (ds := unique (merge_sorted [divisions lhs; divisions rhs])) in *.
  assert (Sorted Z.lt ds) as Hinc.
  { apply (common_increasing [lhs; rhs]). by repeat constructor. }
  assert (∀ x, x ∈ ds ↔ x ∈ divisions lhs ∨ x ∈ divisions rhs) as Hds.
  { intros x. unfold ds. rewrite (elem_of_common [lhs; rhs]). set_solver. }
  assert (∃ top bottom,
             zip_with (λ a b, [a; b]) (column lhs2 (init ds) 0) (column rhs2 (init ds) 0)
             = top ++ [[None; None]] ++ bottom ∧
             Forall one_sided top ∧ Forall one_sided bottom ∧
             length ds = length (divisions lhs2) + length (divisions rhs2) ∧
             length top + length bottom + 2 = length ds ∧
             (Sorted Z.lt (divisions lhs) → divisions lhs2 = divisions lhs) ∧
             (Sorted Z.lt (divisions rhs) → divisions rhs2 = divisions rhs))
    as (top & bottom & Hparts & Htop & Hbottom & Hlen & Hrows & HeqL & HeqR).
  { destruct Hdisj as [Hlt|Hlt].
    - destruct (disjoint_columns ds lhs rhs lhs2 rhs2 hi1 lo2)
        as (n1 & n2 & Hn1 & Hn2 & Hcat & HcolL & HcolR & HeqL & HeqR); try done.
      rewrite HcolL, HcolR, zip_with_gap by apply refs_length.
      eexists _, _. split; [done|].
      split; [apply one_sided_left|]. split; [apply one_sided_right|].
      rewrite !length_zip_with, !refs_length, !length_replicate, Hcat, length_app.
      repeat split; try done; lia.
    - destruct (disjoint_columns ds rhs lhs rhs2 lhs2 hi2 lo1)
        as (n1 & n2 & Hn1 & Hn2 & Hcat & HcolR & HcolL & HeqR & HeqL); try done.
      { intros x. rewrite Hds. tauto. }
      rewrite HcolL, HcolR.
      rewrite <-(zip_with_flip (λ a b : option key, [a; b])).
      rewrite zip_with_gap by apply refs_length.
      rewrite !zip_with_flip.
      eexists _, _. split; [done|].
      split; [apply one_sided_right|]. split; [apply one_sided_left|].
      rewrite !length_zip_with, !refs_length, !length_replicate, Hcat, length_app.
      repeat split; try done; lia. }
  rewrite Hparts in Halign.
  pose proof (join_indexed_run lhs rhs "outer" lsuffix rsuffix st lhs2 rhs2 ds _ st1
                [] ds _ cols Halign required_outer eq_refl) as Hjoin.
  rewrite <-Hparts, HcL, HcR in Hjoin.
  specialize (Hjoin (pair_rows _ _) Hcols). cbv zeta in Hjoin.
  eexists lhs2, rhs2, ds, top, bottom, st1, _, _.
  split; [exact Halign|]. do 2 (split; [done|]).
  split; [unfold npartitions; lia|].
  split; [exact Hjoin|]. split; [done|].
  split; [unfold npartitions; cbn [divisions]; lia|]. done.
Qed.

(** ** [require] *)

Section require.
Context {D : Type}.
Implicit Types (divisions : list D) (parts : list (list (option key))).

Lemma slot_present_0 i p parts :
  slot_present i (p :: parts) 0 ↔ ∃ k, p !! i = Some (Some k).
Proof.
  split.
  - intros (p' & k & Hp & Hk). simplify_eq/=. eauto.
  - intros (k & Hk). exists p, k. done.
Qed.

Lemma slot_present_S i p parts n :
  slot_present i (p :: parts) (S n) ↔ slot_present i parts n.
Proof. done. Qed.

Lemma present_from_spec i j parts rows :
  present_from i j parts = Ok rows →
  ∀ r, r ∈ rows ↔ j ≤ r ∧ slot_present i parts (r - j).
Proof.
  revert j rows. induction parts as [|p parts IH]; intros j rows Hrows r.
  - simplify_eq/=. split; [set_solver|]. intros [_ (p & k & Hp & _)]. done.
  - simpl in Hrows. destruct (p !! i) as [c|] eqn:Ep; [|done].
    destruct (present_from i (S j) parts) as [rest|] eqn:Erest; [|done].
    simpl in Hrows. injection Hrows as <-. specialize (IH (S j) rest Erest r).
    destruct (decide (r = j)) as [->|Hne].
    + rewrite Nat.sub_diag, slot_present_0, Ep.
      destruct c as [k|].
      * split; [eauto|set_solver].
      * rewrite IH. split; [lia|]. intros [_ [k Hk]]. done.
    + assert (r ∈ (if c is Some _ then j :: rest else rest) ↔ r ∈ rest) as ->.
      { destruct c; set_solver. }
      rewrite IH. destruct (decide (j < r)) as [Hlt|]; [|lia].
      replace (r - j) with (S (r - S j)) by lia.
      rewrite slot_present_S. split; intros [? ?]; split; done || lia.
Qed.

Lemma present_from_total i j parts :
  Forall (λ p : list (option key), i < length p) parts →
  ∃ rows, present_from i j parts = Ok rows.
Proof.
  intros Hrows. revert j. induction Hrows as [|p parts Hp _ IH]; intros j.
  - by exists [].
  - simpl. destruct (lookup_lt_is_Some_2 p i Hp) as [c ->].
    destruct (IH (S j)) as [rest ->]. simpl. eauto.
Qed.

Lemma foldl_min_spec x (l : list nat) :
  foldl Nat.min x l ∈ x :: l ∧ ∀ r, r ∈ x :: l → foldl Nat.min x l ≤ r.
Proof.
  revert x. induction l as [|y l IH]; intros x; simpl.
  - split; [set_solver|]. intros r ->%list_elem_of_singleton. done.
  - destruct (IH (x `min` y)) as [Hin Hle]. split.
    + apply elem_of_cons in Hin as [Hin|Hin]; [|set_solver].
      rewrite Hin. destruct (Nat.min_spec x y) as [[_ ->]|[_ ->]]; set_solver.
    + intros r Hr. rewrite !elem_of_cons in Hr.
      destruct Hr as [->|[->|Hr]].
      * specialize (Hle (x `min` y) ltac:(left)). lia.
      * specialize (Hle (x `min` y) ltac:(left)). lia.
      * apply Hle. by right.
Qed.

Lemma foldl_max_spec x (l : list nat) :
  foldl Nat.max x l ∈ x :: l ∧ ∀ r, r ∈ x :: l → r ≤ foldl Nat.max x l.
Proof.
  revert x. induction l as [|y l IH]; intros x; simpl.
  - split; [set_solver|]. intros r ->%list_elem_of_singleton. done.
  - destruct (IH (x `max` y)) as [Hin Hle]. split.
    + apply elem_of_cons in Hin as [Hin|Hin]; [|set_solver].
      rewrite Hin. destruct (Nat.max_spec x y) as [[_ ->]|[_ ->]]; set_solver.
    + intros r Hr. rewrite !elem_of_cons in Hr.
      destruct Hr as [->|[->|Hr]].
      * specialize (Hle (x `max` y) ltac:(left)). lia.
      * specialize (Hle (x `max` y) ltac:(left)). lia.
      * apply Hle. by right.
Qed.

Lemma py_min_spec rows lo :
  py_min rows = Ok lo → lo ∈ rows ∧ ∀ r, r ∈ rows → lo ≤ r.
Proof.
  destruct rows as [|x l]; [done|]. intros [= <-]. apply foldl_min_spec.
Qed.

Lemma py_max_spec rows hi :
  py_max rows = Ok hi → hi ∈ rows ∧ ∀ r, r ∈ rows → r ≤ hi.
Proof.
  destruct rows as [|x l]; [done|]. intros [= <-]. apply foldl_max_spec.
Qed.

Lemma py_min_max_ok rows r :
  r ∈ rows → ∃ lo hi, py_min rows = Ok lo ∧ py_max rows = Ok hi.
Proof. destruct rows; [set_solver|]. simpl. eauto. Qed.

Lemma presence_range_intro i parts rows lo hi :
  present i parts = Ok rows → py_min rows = Ok lo → py_max rows = Ok hi →
  presence_range i parts lo hi.
Proof.
  intros Hrows [Hlo Hmin]%py_min_spec [Hhi Hmax]%py_max_spec.
  pose proof (present_from_spec i 0 parts rows Hrows) as Hspec.
  assert (∀ r, r ∈ rows ↔ slot_present i parts r) as Hspec'.
  { intros r. rewrite Hspec, Nat.sub_0_r. split; [tauto|]. split; [lia|done]. }
  split; [by apply Hspec'|]. split; [by apply Hspec'|].
  intros r Hr%Hspec'. split; auto.
Qed.

Lemma require_step_spec divisions parts i divisions' parts' :
  require_step (divisions, parts) i = Ok (divisions', parts') →
  ∃ rows lo hi,
    present i parts = Ok rows ∧ py_min rows = Ok lo ∧ py_max rows = Ok hi ∧
    divisions' = slice divisions lo (hi + 2) ∧ parts' = slice parts lo (hi + 1).
Proof.
  unfold require_step. intros Hstep.
  destruct (present i parts) as [rows|] eqn:Hrows; simpl in Hstep; [|done].
  destruct (py_min rows) as [lo|] eqn:Hlo; simpl in Hstep; [|done].
  destruct (py_max rows) as [hi|] eqn:Hhi; simpl in Hstep; [|done].
  injection Hstep as <- <-. eauto 10.
Qed.

Lemma slice_lookup {A} (l : list A) a b j :
  slice l a b !! j = if decide (a + j < b) then l !! (a + j) else None.
Proof.
  unfold slice. rewrite lookup_drop.
  destruct (decide (a + j < b)).
  - by rewrite lookup_take_lt.
  - apply lookup_ge_None. rewrite length_take. lia.
Qed.

Lemma slice_slice {A} (l : list A) a b c d :
  slice (slice l a b) c d = slice l (a + c) (b `min` (a + d)).
Proof.
  unfold slice. rewrite take_drop_commute, take_take, drop_drop.
  do 2 f_equal. lia.
Qed.

Lemma slice_length {A} (l : list A) a b :
  length (slice l a b) = b `min` length l - a.
Proof. unfold slice. by rewrite length_drop, length_take. Qed.

Lemma slot_present_slice i parts a b j :
  slot_present i (slice parts a b) j ↔ a + j < b ∧ slot_present i parts (a + j).
Proof.
  unfold slot_present. rewrite slice_lookup.
  destruct (decide (a + j < b)); [naive_solver|].
  split; [|lia]. intros (p & k & Hp & _). done.
Qed.
End require.

(** C6 (amended).  On an input shaped like the alignment of two datasets
    ([len(divisions) = len(parts) + 1], two slots per row, and in each slot
    the present rows consecutive), whenever [require] with [required=[0, 1]]
    returns: every returned row has both slots present, the returned
    boundaries are one more than the returned rows, and the surviving rows
    are exactly the intersection of the two ranges [min(present),
    max(present)] computed on the input. *)
Theorem require_inner_spec {D} (divisions : list D) (parts : list (list (option key)))
    (divisions' : list D) (parts' : list (list (option key))) :
  length divisions = length parts + 1 →
  Forall (λ p : list (option key), length p = 2) parts →
  contiguous 0 parts → contiguous 1 parts →
  require divisions parts (Some [0; 1]) = Ok (divisions', parts') →
  Forall (λ p, ∃ a b, p = [Some a; Some b]) parts' ∧
  length divisions' = length parts' + 1 ∧
  ∃ rows0 rows1 lo0 hi0 lo1 hi1,
    present 0 parts = Ok rows0 ∧ py_min rows0 = Ok lo0 ∧ py_max rows0 = Ok hi0 ∧
    present 1 parts = Ok rows1 ∧ py_min rows1 = Ok lo1 ∧ py_max rows1 = Ok hi1 ∧
    lo0 `max` lo1 ≤ hi0 `min` hi1 ∧
    parts' = slice parts (lo0 `max` lo1) (hi0 `min` hi1 + 1) ∧
    divisions' = slice divisions (lo0 `max` lo1) (hi0 `min` hi1 + 2).
Proof.
  intros Hlen Hrows Hc0 Hc1 Hreq.
  cbn [require require_loop] in Hreq.
  destruct (require_step (divisions, parts) 0) as [[D1 P1]|] eqn:Hstep0;
    cbn [mbind res_mbind res_bind require_loop] in Hreq; [|discriminate Hreq].
  destruct (require_step (D1, P1) 1) as [[D2 P2]|] eqn:Hstep1;
    cbn [mbind res_mbind res_bind require_loop] in Hreq; [|discriminate Hreq].
  injection Hreq as -> ->.
  apply require_step_spec in Hstep0 as (rows0 & lo0 & hi0 & Hp0 & Hlo0 & Hhi0 & -> & ->).
  apply require_step_spec in Hstep1 as (rows1' & m & M' & Hp1' & Hm & HM & -> & ->).
  pose proof (presence_range_intro _ _ _ _ _ Hp0 Hlo0 Hhi0) as (Pl0 & Ph0 & Pr0).
  pose proof (presence_range_intro _ _ _ _ _ Hp1' Hm HM) as (Pm & PM & Pr1').
  apply slot_present_slice in Pm as [Hm_in Pm].
  apply slot_present_slice in PM as [HM_in PM].
  destruct (present_from_total 1 0 parts) as [rows1 Hp1].
  { eapply Forall_impl; [exact Hrows|]. simpl. lia. }
  fold (present 1 parts) in Hp1.
  assert (lo0 + m ∈ rows1) as Hin1.
  { apply (present_from_spec 1 0 parts rows1 Hp1). rewrite Nat.sub_0_r. split; [lia|done]. }
  destruct (py_min_max_ok rows1 _ Hin1) as (lo1 & hi1 & Hlo1 & Hhi1).
  pose proof (presence_range_intro _ _ _ _ _ Hp1 Hlo1 Hhi1) as (Pl1 & Ph1 & Pr1).
  pose proof (Pr1 _ Pm) as Hb1. pose proof (Pr1 _ PM) as Hb2.
  pose proof (Pr1' m) as Hmm. pose proof (Pr1' M') as HMM.
  rewrite slot_present_slice in Hmm, HMM.
  specialize (Hmm (conj Hm_in Pm)). specialize (HMM (conj HM_in PM)).
  assert (lo0 + m = lo0 `max` lo1) as Elo.
  { apply Nat.le_antisymm; [|lia].
    assert (slot_present 1 parts (lo0 `max` lo1)) as Px.
    { apply (Hc1 lo1 _ (lo0 + m)); [lia|lia|done|done]. }
    specialize (Pr1' (lo0 `max` lo1 - lo0)). rewrite slot_present_slice in Pr1'.
    replace (lo0 + (lo0 `max` lo1 - lo0)) with (lo0 `max` lo1) in Pr1' by lia.
    assert (lo0 `max` lo1 < hi0 + 1) as Hx by lia.
    specialize (Pr1' (conj Hx Px)). lia. }
  assert (lo0 + M' = hi0 `min` hi1) as Ehi.
  { apply Nat.le_antisymm; [lia|].
    assert (slot_present 1 parts (hi0 `min` hi1)) as Px.
    { apply (Hc1 (lo0 + M') _ hi1); [lia|lia|done|done]. }
    specialize (Pr1' (hi0 `min` hi1 - lo0)). rewrite slot_present_slice in Pr1'.
    replace (lo0 + (hi0 `min` hi1 - lo0)) with (hi0 `min` hi1) in Pr1' by lia.
    assert (hi0 `min` hi1 < hi0 + 1) as Hx by lia.
    specialize (Pr1' (conj Hx Px)). lia. }
  assert (slice (slice parts lo0 (hi0 + 1)) m (M' + 1)
          = slice parts (lo0 `max` lo1) (hi0 `min` hi1 + 1)) as Eparts.
  { rewrite slice_slice, Elo. f_equal. lia. }
  assert (slice (slice divisions lo0 (hi0 + 2)) m (M' + 2)
          = slice divisions (lo0 `max` lo1) (hi0 `min` hi1 + 2)) as Edivs.
  { rewrite slice_slice, Elo. f_equal. lia. }
  assert (hi0 `min` hi1 < length parts) as Hlt.
  { destruct PM as (p & k & Hp & _). apply lookup_lt_Some in Hp. lia. }
  rewrite Eparts, Edivs. split; [|split].
  - apply Forall_lookup. intros j p Hj. rewrite slice_lookup in Hj.
    destruct (decide (lo0 `max` lo1 + j < hi0 `min` hi1 + 1)) as [Hr|]; [|done].
    destruct (Hc0 lo0 (lo0 `max` lo1 + j) hi0) as (p0 & a & Hp0' & Ha); [lia|lia|done..|].
    destruct (Hc1 lo1 (lo0 `max` lo1 + j) hi1) as (p1 & b & Hp1'' & Hb); [lia|lia|done..|].
    simplify_eq. rewrite Forall_lookup in Hrows. specialize (Hrows _ _ Hj).
    destruct p as [|a' [|b' [|? ?]]]; simplify_eq/=. eauto.
  - rewrite !slice_length. lia.
  - exists rows0, rows1, lo0, hi0, lo1, hi1. repeat split; try done. lia.
Qed.

(** C7.  [require] with [required=[]] returns its arguments unchanged; so
    does the default [required=None]. *)
Theorem require_empty_identity {D} (divisions : list D) (parts : list (list (option key))) :
  require divisions parts (Some []) = Ok (divisions, parts) ∧
  require divisions parts None = Ok (divisions, parts).
Proof. split; reflexivity. Qed.

(** When a required slot has no present row in what the earlier iterations
    left, [min(present)] raises. *)
Lemma require_absent_slot_raises {D} (divisions : list D) parts before i after
    (divisions1 : list D) parts1 :
  require_loop (divisions, parts) before = Ok (divisions1, parts1) →
  present i parts1 = Ok [] →
  require divisions parts (Some (before ++ i :: after)) = Raise ValueError.
Proof.
  intros Hbefore Hi.
  assert (require_loop (divisions, parts) (before ++ i :: after) = Raise ValueError)
    as Hloop.
  { revert divisions parts Hbefore.
    induction before as [|k before IH]; intros divisions parts Hbefore.
    - simplify_eq/=. unfold require_step. by rewrite Hi.
    - cbn [app require_loop] in *.
      destruct (require_step (divisions, parts) k) as [[d p]|]; [|done].
      cbn [mbind res_mbind res_bind] in *. by apply IH. }
  unfold require. by destruct before.
Qed.

(** ** Unsupported join kinds *)

(** X15.  [concat_indexed_dataframes] checks the join kind first: nothing is drawn
    from the token source and no collaborator is called. *)
Lemma concat_rejects_first `{Pandas} dfs join st :
  join ∉ ["inner"; "outer"] →
  concat_indexed_dataframes dfs join st = (Raise AssertionError, st).
Proof.
  intros Hjoin. unfold concat_indexed_dataframes.
  by rewrite bool_decide_eq_false_2, lift_raise_bind.
Qed.

(** [join_indexed_dataframes] aligns first: with an unknown join kind and
    alignable inputs, both inputs have been repartitioned when the table
    lookup raises. *)
Lemma join_rejects_after_align `{Pandas} lhs rhs how lsuffix rsuffix st :
  Sorted Z.le (divisions lhs) → Sorted Z.le (divisions rhs) →
  divisions lhs ≠ [] → divisions rhs ≠ [] →
  required !! how = None →
  ∃ onto1 onto2,
    join_indexed_dataframes lhs rhs how lsuffix rsuffix st
    = (Raise KeyError,
       mkState (tokens st + 2)
               (calls st ++ [Repartition (_name lhs) onto1; Repartition (_name rhs) onto2])).
Proof.
  intros HsL HsR HneL HneR Hhow.
  destruct (align_pair lhs rhs st HsL HsR HneL HneR)
    as (lhs2 & rhs2 & [tok cs] & Halign & _ & _ & _ & _ & Htok & Hcalls).
  simpl in Htok, Hcalls. subst tok cs.
  exists (divisions lhs2), (divisions rhs2).
  unfold join_indexed_dataframes.
  rewrite (bind_ok _ _ _ _ _ Halign). cbv beta iota.
  rewrite lift_bind. cbv beta iota.
  unfold getitem. by rewrite Hhow, lift_raise_bind.
Qed.

(** And when [align] itself raises, its error is the one reported. *)
Lemma join_align_error_first `{Pandas} lhs rhs how lsuffix rsuffix st :
  divisions lhs = [] ∨ divisions rhs = [] →
  join_indexed_dataframes lhs rhs how lsuffix rsuffix st = (Raise IndexError, st).
Proof.
  intros Hempty. unfold join_indexed_dataframes.
  rewrite (bind_raise _ _ st IndexError st); [done|].
  apply align_raises. destruct Hempty; [by left|right; by left].
Qed.

(** ** [hash_join] *)

Lemma shuffle_ok {D} (df : DataFrame D) col n st :
  ∃ df2,
    shuffle df col n st
    = (Ok df2, mkState (S (tokens st)) (calls st ++ [Shuffle (_name df) col n])) ∧
    divisions df2 = py_repeat None (n + 1) ∧ columns df2 = columns df.
Proof. eexists. split; [reflexivity|]. done. Qed.

Lemma graph_of_seq_lookup (name : string) (v : nat → option task) n i :
  i < n →
  (list_to_map ((λ i, ((name, i), v i)) <$> seq 0 n) : graph) !! (name, i) = Some (v i).
Proof.
  intros Hi. apply elem_of_list_to_map_1.
  - rewrite <-list_fmap_compose. apply NoDup_fmap_2; [|apply NoDup_seq].
    intros j1 j2 Hj. by simplify_eq/=.
  - apply list_elem_of_fmap. exists i. split; [done|]. apply elem_of_seq. lia.
Qed.

Lemma merge_lookup_last (a b c : graph) k v :
  c !! k = Some v → merge [a; b; c] !! k = Some v.
Proof. intros Hc. unfold merge. simpl. by apply lookup_union_Some_l. Qed.

(** C9.  Called without [npartitions], [hash_join] shuffles both inputs into
    [max(lhs.npartitions, rhs.npartitions)] buckets and emits one merge task
    per bucket, and the [divisions] of its output are [npartitions + 1]
    entries that are all [None]. *)
Theorem hash_join_default `{Pandas} {D} (lhs rhs : DataFrame D)
    (on_left on_right how : string) (suffixes : string * string)
    (cols : list string) (st : State) :
  merge_columns (columns lhs) (columns rhs) how on_left on_right = Ok cols →
  let n := Z.max (npartitions lhs) (npartitions rhs) in
  ∃ out st',
    hash_join lhs on_left rhs on_right how None suffixes st = (Ok out, st') ∧
    calls st' = calls st ++ [Shuffle (_name lhs) on_left n; Shuffle (_name rhs) on_right n] ∧
    (∀ i, (Z.of_nat i < n)%Z →
       ∃ l r, dask out !! (_name out, i)
              = Some (Some (MergeTask suffixes (l, i) (r, i) how on_left on_right))) ∧
    divisions out = replicate (Z.to_nat (n + 1)) None ∧
    Z.of_nat (length (divisions out)) = (n + 1)%Z.
Proof.
  intros Hcols n.
  destruct (shuffle_ok lhs on_left n st) as (lhs2 & Hl & _ & _).
  destruct (shuffle_ok rhs on_right n
              (mkState (S (tokens st)) (calls st ++ [Shuffle (_name lhs) on_left n])))
    as (rhs2 & Hr & _ & _).
  unfold hash_join. fold n. cbv zeta.
  rewrite (bind_ok _ _ _ _ _ Hl), (bind_ok _ _ _ _ _ Hr), next_token_bind.
  rewrite Hcols, lift_bind. eexists _, _. split; [reflexivity|].
  cbn [calls divisions dask _name]. split; [by rewrite <-app_assoc|].
  split.
  { intros i Hi. exists (_name lhs2), (_name rhs2).
    apply merge_lookup_last. unfold range.
    apply (graph_of_seq_lookup _
             (λ i, Some (MergeTask suffixes (_name lhs2, i) (_name rhs2, i)
                           how on_left on_right))).
    lia. }
  split; [done|].
  unfold py_repeat. rewrite length_replicate. unfold n, npartitions. lia.
Qed.

(** ** The common boundaries of a collection *)

Lemma fmap_eq_Forall2 {A B C} (f : B → C) (g : A → C) (l1 : list A) (l2 : list B) :
  f <$> l2 = g <$> l1 → Forall2 (λ a b, f b = g a) l1 l2.
Proof.
  revert l2. induction l1 as [|a l1 IH]; intros [|b l2] Heq; simplify_eq/=;
    constructor; auto.
Qed.

(** A duplicate-free list drawn from a list with a duplicate is shorter. *)
Lemma NoDup_shorter {A} (l k : list A) :
  NoDup l → (∀ x, x ∈ l → x ∈ k) → ¬ NoDup k → length l < length k.
Proof.
  intros Hnd Hsub Hdup.
  pose proof (NoDup_submseteq l k Hnd Hsub) as Hle.
  destruct (Nat.lt_ge_cases (length l) (length k)) as [|Hge]; [done|].
  destruct Hdup. rewrite <-(submseteq_length_Permutation l k); done.
Qed.

(** C10 (amended).  For a non-empty collection of datasets with non-empty,
    non-decreasing boundaries, [align] returns; the common boundaries are
    strictly increasing and are the distinct boundary values of the inputs;
    the matrix has one row less than there are distinct values; every input
    is repartitioned onto strictly increasing boundaries that contain all of
    its own; and an input with a repeated boundary ends up with strictly
    fewer boundaries provided no other input has a further boundary inside
    its range. *)
Theorem align_common_boundaries (dfs : list (DataFrame Z)) (st : State) :
  dfs ≠ [] →
  Forall (λ df, Sorted Z.le (divisions df) ∧ divisions df ≠ []) dfs →
  ∃ dfs2 ds parts st',
    align dfs st = (Ok (dfs2, ds, parts), st') ∧
    Sorted Z.lt ds ∧
    (∀ x, x ∈ ds ↔ ∃ df, df ∈ dfs ∧ x ∈ divisions df) ∧
    length ds = size (list_to_set (C := gset Z) (mjoin (divisions <$> dfs))) ∧
    length parts + 1 = length ds ∧
    Forall2 (λ df df2,
               Sorted Z.lt (divisions df2) ∧
               (∀ x, x ∈ divisions df → x ∈ divisions df2) ∧
               (¬ NoDup (divisions df) →
                (∀ other, other ∈ dfs → covers df other) →
                length (divisions df2) < length (divisions df)))
            dfs dfs2.
Proof.
  intros Hdfs Hwf.
  assert (Forall (λ df, Sorted Z.le (divisions df)) dfs) as Hs.
  { eapply Forall_impl; [exact Hwf|]. by intros df [? ?]. }
  assert (Forall (λ df, divisions df ≠ []) dfs) as Hne.
  { eapply Forall_impl; [exact Hwf|]. by intros df [? ?]. }
  destruct (align_ok dfs st Hne) as (dfs2 & st' & Halign & Hdivs & _).
  set (ds := unique (merge_sorted (divisions <$> dfs))) in *.
  pose proof (common_increasing dfs Hs) as Hinc. fold ds in Hinc.
  eexists dfs2, ds, _, st'. split; [exact Halign|]. split; [done|].
  split; [apply elem_of_common|]. split; [apply common_length|].
  split.
  - rewrite align_rows_length. unfold init. rewrite length_take.
    assert (length ds ≠ 0); [|lia].
    destruct dfs as [|df dfs']; [done|].
    apply Forall_cons in Hne as [Hdf _].
    destruct (divisions df) as [|x l] eqn:E; [done|].
    assert (x ∈ ds) as Hx.
    { apply elem_of_common. exists df. rewrite E. set_solver. }
    destruct ds; [set_solver|done].
  - apply fmap_eq_Forall2 in Hdivs.
    apply Forall2_same_length_lookup_2; [by apply Forall2_length in Hdivs|].
    intros i df df2 Hdf Hdf2.
    pose proof (Forall2_lookup_lr _ _ _ _ _ _ Hdivs Hdf Hdf2) as Hbound.
    apply list_elem_of_lookup_2 in Hdf.
    rewrite Forall_forall in Hs, Hne.
    assert (aligned_slot ds df df2) as Hslot.
    { apply aligned_slot_intro; auto.
      intros x Hx. apply elem_of_common. eauto. }
    destruct Hslot as (pre & post & lo & hi & Hlo & Hhi & _ & _ & _ & Hinc2 & _ & _ & Hin & _).
    assert (∀ x, x ∈ divisions df → x ∈ divisions df2) as Hown.
    { intros x Hx. apply Hin. split; [apply elem_of_common; eauto|].
      apply (sorted_between (divisions df)); auto. }
    split; [done|]. split; [done|].
    intros Hdup Hcov. apply NoDup_shorter; [by apply increasing_NoDup| |done].
    intros x [(other & Hother & Hx)%elem_of_common Hr]%Hin.
    by apply (Hcov other Hother lo hi).
Qed.

(** ** Which rows of a join get a task *)

Lemma graph_of_rows_lookup (name : string) (g : list (option key) → option task)
    (parts : list (list (option key))) i row :
  parts !! i = Some row →
  (list_to_map (imap (λ k row, ((name, 0 + k), g row)) parts) : graph) !! (name, i)
  = Some (g row).
Proof.
  intros Hrow. apply elem_of_list_to_map_1.
  - apply NoDup_alt. intros j1 j2 k.
    rewrite !list_lookup_fmap, !list_lookup_imap.
    destruct (parts !! j1), (parts !! j2); simpl; intros; simplify_eq. done.
  - apply (list_elem_of_lookup_2 _ i). by rewrite list_lookup_imap, Hrow.
Qed.

(** What a returning call of [join_indexed_dataframes] has gone through. *)
Lemma join_indexed_inv `{Pandas} lhs rhs how lsuffix rsuffix st out st'
    lhs2 rhs2 ds parts st1 :
  align [lhs; rhs] st = (Ok ([lhs2; rhs2], ds, parts), st1) →
  join_indexed_dataframes lhs rhs how lsuffix rsuffix st = (Ok out, st') →
  ∃ req ds' parts',
    required !! how = Some req ∧
    require ds parts (Some req) = Ok (ds', parts') ∧
    Forall (λ row : list (option key), length row = 2) parts' ∧
    divisions out = ds' ∧
    ∀ i row, parts' !! i = Some row →
      dask out !! (_name out, i) = Some (row_task lhs2 rhs2 how lsuffix rsuffix row).
Proof.
  intros Halign Hjoin. unfold join_indexed_dataframes in Hjoin.
  rewrite (bind_ok _ _ _ _ _ Halign) in Hjoin. cbv beta iota in Hjoin.
  rewrite lift_bind in Hjoin. cbv beta iota in Hjoin. unfold getitem in Hjoin.
  destruct (required !! how) as [req|] eqn:Hreq;
    [rewrite lift_bind in Hjoin|by rewrite lift_raise_bind in Hjoin].
  destruct (require ds parts (Some req)) as [[ds' parts']|] eqn:Hrequire;
    [rewrite lift_bind in Hjoin|by rewrite lift_raise_bind in Hjoin].
  cbv beta iota in Hjoin. rewrite next_token_bind in Hjoin. cbv zeta in Hjoin.
  set (name := "join-indexed" +:+ "-" +:+ pretty (tokens st1)) in *.
  assert (Forall (λ row : list (option key), length row = 2) parts') as Hrows.
  { destruct (join_tasks name lhs2 rhs2 how lsuffix rsuffix 0 parts') eqn:Htasks;
      [|by rewrite lift_raise_bind in Hjoin].
    clear -Htasks. revert Htasks. generalize 0 at 1. revert a.
    induction parts' as [|row parts' IH]; intros dsk i Htasks; [constructor|].
    destruct row as [|a [|b [|? ?]]]; try discriminate Htasks.
    cbn [join_tasks] in Htasks.
    destruct (join_tasks name lhs2 rhs2 how lsuffix rsuffix (S i) parts') eqn:E;
      [|discriminate Htasks].
    constructor; [done|]. by eapply IH. }
  rewrite (join_tasks_ok name _ _ _ _ _ 0 _ Hrows), lift_bind in Hjoin.
  destruct (join_columns (columns lhs2) (columns rhs2) how lsuffix rsuffix) as [cols|];
    [rewrite lift_bind in Hjoin|by rewrite lift_raise_bind in Hjoin].
  injection Hjoin as <- <-.
  exists req, ds', parts'. do 4 (split; [done|]).
  intros i row Hrow. cbn [dask _name].
  apply merge_lookup_last, (graph_of_rows_lookup name _ parts' i row Hrow).
Qed.

Lemma zip_slot_present_l (c1 c2 : list (option key)) j :
  length c1 = length c2 →
  slot_present 0 (zip_with (λ a b, [a; b]) c1 c2) j ↔ ∃ k, c1 !! j = Some (Some k).
Proof.
  intros Hlen. unfold slot_present. split.
  - intros (p & k & (a & b & -> & Ha & Hb)%lookup_zip_with_Some & Hk).
    simplify_eq/=. eauto.
  - intros (k & Hk). destruct (lookup_lt_is_Some_2 c2 j) as [b Hb].
    { rewrite <-Hlen. by eapply lookup_lt_Some. }
    exists [Some k; b], k. split; [|done].
    apply lookup_zip_with_Some. eauto.
Qed.

Lemma zip_slot_present_r (c1 c2 : list (option key)) j :
  length c1 = length c2 →
  slot_present 1 (zip_with (λ a b, [a; b]) c1 c2) j ↔ ∃ k, c2 !! j = Some (Some k).
Proof.
  intros Hlen. unfold slot_present. split.
  - intros (p & k & (a & b & -> & Ha & Hb)%lookup_zip_with_Some & Hk).
    simplify_eq/=. eauto.
  - intros (k & Hk). destruct (lookup_lt_is_Some_2 c1 j) as [a Ha].
    { rewrite Hlen. by eapply lookup_lt_Some. }
    exists [a; Some k], k. split; [|done].
    apply lookup_zip_with_Some. eauto.
Qed.

(** In a column the references sit on consecutive rows. *)
Lemma column_form_lookup p name n q j :
  (∃ k, (replicate p None ++ refs name 0 n ++ replicate q None) !! j = Some (Some k))
  ↔ p ≤ j < p + n.
Proof.
  split.
  - intros [k Hk].
    destruct (decide (j < p)) as [Hj|Hj].
    { rewrite lookup_app_l in Hk by (by rewrite length_replicate).
      apply lookup_replicate in Hk as [? _]. done. }
    rewrite lookup_app_r, length_replicate in Hk by (rewrite length_replicate; lia).
    destruct (decide (j - p < n)) as [Hn|Hn]; [lia|].
    rewrite lookup_app_r, refs_length in Hk by (rewrite refs_length; lia).
    apply lookup_replicate in Hk as [? _]. done.
  - intros [Hp Hn]. exists (name, j - p).
    rewrite lookup_app_r, length_replicate by (rewrite length_replicate; lia).
    rewrite lookup_app_l by (rewrite refs_length; lia).
    unfold refs. rewrite list_lookup_fmap, lookup_seq_lt by lia. done.
Qed.

(** The matrix of two aligned datasets has consecutive present rows in both
    slots. *)
Lemma aligned_contiguous ds lhs rhs lhs2 rhs2 :
  aligned_slot ds lhs lhs2 → aligned_slot ds rhs rhs2 →
  let parts := zip_with (λ a b, [a; b]) (column lhs2 (init ds) 0) (column rhs2 (init ds) 0) in
  contiguous 0 parts ∧ contiguous 1 parts.
Proof.
  intros (preL & postL & _ & _ & _ & _ & _ & _ & HcolL & _)
         (preR & postR & _ & _ & _ & _ & _ & _ & HcolR & _) parts.
  assert (length (column lhs2 (init ds) 0) = length (column rhs2 (init ds) 0)) as Hlen.
  { by rewrite !column_length. }
  split; intros j1 j2 j3 H12 H23; unfold parts.
  - rewrite !(zip_slot_present_l _ _ _ Hlen), HcolL, !column_form_lookup. lia.
  - rewrite !(zip_slot_present_r _ _ _ Hlen), HcolR, !column_form_lookup. lia.
Qed.

(** Pruning on one slot: every row left has the slot present. *)
Lemma require_one_spec {D} (divisions : list D) (parts : list (list (option key))) i
    (divisions' : list D) (parts' : list (list (option key))) :
  length divisions = length parts + 1 → contiguous i parts →
  require divisions parts (Some [i]) = Ok (divisions', parts') →
  Forall (λ p, ∃ k, p !! i = Some (Some k)) parts' ∧
  length divisions' = length parts' + 1.
Proof.
  intros Hlen Hc Hreq. cbn [require require_loop] in Hreq.
  destruct (require_step (divisions, parts) i) as [[D1 P1]|] eqn:Hstep;
    cbn [mbind res_mbind res_bind require_loop] in Hreq; [|discriminate Hreq].
  injection Hreq as -> ->.
  apply require_step_spec in Hstep as (rows & lo & hi & Hp & Hlo & Hhi & -> & ->).
  pose proof (presence_range_intro _ _ _ _ _ Hp Hlo Hhi) as (Pl & Ph & Pr).
  pose proof (Pr _ Pl) as Hle.
  assert (hi < length parts) as Hlt.
  { destruct Ph as (p & k & Hp' & _). by apply lookup_lt_Some in Hp'. }
  split.
  - apply Forall_lookup. intros j p Hj. rewrite slice_lookup in Hj.
    destruct (decide (lo + j < hi + 1)) as [Hr|]; [|done].
    destruct (Hc lo (lo + j) hi) as (p' & k & Hp' & Hk); [lia|lia|done..|].
    simplify_eq. eauto.
  - rewrite !slice_length. lia.
Qed.

Lemma required_left : required !! "left" = Some [0].
Proof. vm_compute. reflexivity. Qed.

Lemma required_right : required !! "right" = Some [1].
Proof. vm_compute. reflexivity. Qed.

Lemma required_inner : required !! "inner" = Some [0; 1].
Proof. vm_compute. reflexivity. Qed.

(** X10.  For the join kinds that prune, every row that survives gets a task: the
    fallthrough branch is not taken. *)
Lemma join_emits_tasks `{Pandas} lhs rhs how lsuffix rsuffix st out st' :
  Sorted Z.le (divisions lhs) → Sorted Z.le (divisions rhs) →
  how ∈ ["left"; "right"; "inner"] →
  join_indexed_dataframes lhs rhs how lsuffix rsuffix st = (Ok out, st') →
  ∀ i, i < length (divisions out) - 1 →
    ∃ t, dask out !! (_name out, i) = Some (Some t).
Proof.
  intros HsL HsR Hhow Hjoin.
  destruct (decide (divisions lhs = [])) as [El|HneL].
  { rewrite join_align_error_first in Hjoin by auto. discriminate Hjoin. }
  destruct (decide (divisions rhs = [])) as [Er|HneR].
  { rewrite join_align_error_first in Hjoin by auto. discriminate Hjoin. }
  destruct (align_pair lhs rhs st HsL HsR HneL HneR)
    as (lhs2 & rhs2 & st1 & Halign & HslotL & HslotR & _).
  set (ds := unique (merge_sorted [divisions lhs; divisions rhs])) in *.
  destruct (aligned_contiguous ds lhs rhs lhs2 rhs2 HslotL HslotR) as [Hc0 Hc1].
  destruct (join_indexed_inv _ _ _ _ _ _ _ _ _ _ _ _ _ Halign Hjoin)
    as (req & ds' & parts' & Hreq & Hrequire & Hrows & Hdiv & Htasks).
  set (parts := zip_with (λ a b : option key, [a; b])
                  (column lhs2 (init ds) 0) (column rhs2 (init ds) 0)) in *.
  assert (length ds = length parts + 1) as Hlen.
  { unfold parts. rewrite length_zip_with, !column_length. unfold init.
    rewrite length_take.
    destruct HslotL as (pre & post & lo & hi & _ & _ & _ & Hds & _ & _ & Hhead & _).
    assert (length ds ≠ 0); [|lia].
    rewrite Hds, !length_app.
    destruct (divisions lhs2); [discriminate Hhead|simpl; lia]. }
  rewrite Hdiv. intros i Hi.
  assert (Forall (λ row, ∃ t, row_task lhs2 rhs2 how lsuffix rsuffix row = Some t) parts'
          ∧ length ds' = length parts' + 1) as [Hall Hlen'].
  { rewrite !elem_of_cons in Hhow. destruct Hhow as [->|[->|[->|Hhow]]];
      [| | |by apply elem_of_nil in Hhow].
    - rewrite required_left in Hreq. injection Hreq as <-.
      destruct (require_one_spec ds parts 0 ds' parts' Hlen Hc0 Hrequire) as [Hp Hl].
      split; [|done].
      apply Forall_lookup. intros j row Hrow.
      rewrite Forall_lookup in Hp, Hrows.
      destruct (Hp _ _ Hrow) as [k Hk]. specialize (Hrows _ _ Hrow).
      destruct row as [|a [|b [|? ?]]]; simplify_eq/=. destruct b; eauto.
    - rewrite required_right in Hreq. injection Hreq as <-.
      destruct (require_one_spec ds parts 1 ds' parts' Hlen Hc1 Hrequire) as [Hp Hl].
      split; [|done].
      apply Forall_lookup. intros j row Hrow.
      rewrite Forall_lookup in Hp, Hrows.
      destruct (Hp _ _ Hrow) as [k Hk]. specialize (Hrows _ _ Hrow).
      destruct row as [|a [|b [|? ?]]]; simplify_eq/=. destruct a; eauto.
    - rewrite required_inner in Hreq. injection Hreq as <-.
      destruct (require_inner_spec ds parts ds' parts' Hlen (pair_rows _ _) Hc0 Hc1 Hrequire)
        as (Hp & Hl & _).
      split; [|done].
      apply Forall_lookup. intros j row Hrow.
      rewrite Forall_lookup in Hp.
      destruct (Hp _ _ Hrow) as (a & b & ->). simpl. eauto. }
  destruct (lookup_lt_is_Some_2 parts' i) as [row Hrow]; [lia|].
  rewrite Forall_lookup in Hall. destruct (Hall _ _ Hrow) as [t Ht].
  exists t. by rewrite (Htasks _ _ Hrow), Ht.
Qed.

(** For the outer join nothing is pruned: a row with both slots absent stays
    and its key is mapped to [None]. *)
Lemma outer_join_absent_row `{Pandas} lhs rhs lsuffix rsuffix st out st'
    lhs2 rhs2 ds parts st1 i :
  align [lhs; rhs] st = (Ok ([lhs2; rhs2], ds, parts), st1) →
  join_indexed_dataframes lhs rhs "outer" lsuffix rsuffix st = (Ok out, st') →
  parts !! i = Some [None; None] →
  dask out !! (_name out, i) = Some None.
Proof.
  intros Halign Hjoin Hrow.
  destruct (join_indexed_inv _ _ _ _ _ _ _ _ _ _ _ _ _ Halign Hjoin)
    as (req & ds' & parts' & Hreq & Hrequire & _ & _ & Htasks).
  rewrite required_outer in Hreq. injection Hreq as <-.
  injection Hrequire as <- <-.
  by rewrite (Htasks _ _ Hrow).
Qed.

(** ** Instances *)

Example require_doctest :
  require doctest_divisions doctest_parts (Some [0])
  = Ok ([1; 3; 5; 7]%Z, take 3 doctest_parts) ∧
  require doctest_divisions doctest_parts (Some [1])
  = Ok ([3; 5; 7; 9]%Z, drop 1 doctest_parts) ∧
  require doctest_divisions doctest_parts (Some [0; 1])
  = Ok ([3; 5; 7]%Z, take 2 (drop 1 doctest_parts)).
Proof. repeat split; reflexivity. Qed.

(** C1.  Two datasets with disjoint ranges, aligned and pruned with
    [required=[0, 1]]: after the narrowing to slot 0 no row has slot 1
    present, and [require] raises [ValueError] instead of returning an empty
    result; so does the inner join. *)
Theorem require_disjoint_inner_raises :
  ∃ dfs2 ds parts st',
    align [ex_low; ex_high] st0 = (Ok (dfs2, ds, parts), st') ∧
    require ds parts (Some [0; 1]) = Raise ValueError ∧
    join_indexed_dataframes (H := toy_pandas) ex_low ex_high "inner" "" "" st0
    = (Raise ValueError, st').
Proof.
  eexists _, _, _, _. split; [vm_compute; reflexivity|].
  split; vm_compute; reflexivity.
Qed.

Lemma outer_join_disjoint_witness :
  ∃ lhs2 rhs2 ds top bottom st1 out st2,
    align [ex_low; ex_high] st0
    = (Ok ([lhs2; rhs2], ds, top ++ [[None; None]] ++ bottom), st1) ∧
    Forall one_sided top ∧ Forall one_sided bottom ∧
    Z.of_nat (length top + length bottom) = (npartitions lhs2 + npartitions rhs2)%Z ∧
    join_indexed_dataframes (H := toy_pandas) ex_low ex_high "outer" "" "" st0
    = (Ok out, st2) ∧
    divisions out = ds ∧
    npartitions out = (npartitions lhs2 + npartitions rhs2 + 1)%Z ∧
    (Sorted Z.lt (divisions ex_low) → divisions lhs2 = divisions ex_low) ∧
    (Sorted Z.lt (divisions ex_high) → divisions rhs2 = divisions ex_high).
Proof.
  apply (outer_join_disjoint (H := toy_pandas) ex_low ex_high "" "" ["x"; "y"] st0).
  - repeat constructor; lia.
  - repeat constructor; lia.
  - exists 1%Z, 3%Z, 5%Z, 7%Z. repeat split; try reflexivity. left. lia.
  - reflexivity.
Defined.

Lemma outer_join_disjoint_counterexample :
  ∃ dfs2 ds parts st1 out st2,
    align [ex_low; ex_high] st0 = (Ok (dfs2, ds, parts), st1) ∧
    join_indexed_dataframes (H := toy_pandas) ex_low ex_high "outer" "" "" st0
    = (Ok out, st2) ∧
    npartitions out ≠ (npartitions ex_low + npartitions ex_high)%Z ∧
    Z.of_nat (length parts) ≠ (npartitions ex_low + npartitions ex_high)%Z ∧
    parts !! 1 = Some [None; None].
Proof.
  eexists _, _, _, _, _, _. split; [vm_compute; reflexivity|].
  split; [vm_compute; reflexivity|]. repeat split; vm_compute; congruence.
Qed.

(** C3.  The outer join of two datasets with disjoint ranges: the row of the
    interval between the two ranges has both slots absent, no emit condition
    applies, and the graph maps its key to [None]. *)
Theorem outer_join_gap_task_is_none :
  ∃ dfs2 ds parts st1 out st2,
    align [ex_low; ex_high] st0 = (Ok (dfs2, ds, parts), st1) ∧
    require ds parts (Some []) = Ok (ds, parts) ∧
    parts !! 1 = Some [None; None] ∧
    join_indexed_dataframes (H := toy_pandas) ex_low ex_high "outer" "" "" st0
    = (Ok out, st2) ∧
    dask out !! (_name out, 1) = Some None.
Proof.
  eexists _, _, _, _, _, _. split; [vm_compute; reflexivity|].
  split; [reflexivity|]. split; [reflexivity|].
  split; vm_compute; reflexivity.
Qed.

Lemma align_rederives_repartitioned_witness :
  ∃ lhs2 rhs2 ds parts st',
    align [ex_coarse; ex_fine] st0 = (Ok ([lhs2; rhs2], ds, parts), st') ∧
    rederive 0 ds parts = divisions lhs2 ∧
    rederive 1 ds parts = divisions rhs2 ∧
    (∀ x, x ∈ divisions ex_coarse → x ∈ divisions lhs2) ∧
    (∀ x, x ∈ divisions ex_fine → x ∈ divisions rhs2) ∧
    (divisions lhs2 = divisions ex_coarse
     ↔ Sorted Z.lt (divisions ex_coarse) ∧ covers ex_coarse ex_fine) ∧
    (divisions rhs2 = divisions ex_fine
     ↔ Sorted Z.lt (divisions ex_fine) ∧ covers ex_fine ex_coarse).
Proof.
  apply (align_rederives_repartitioned ex_coarse ex_fine st0).
  - repeat constructor; lia.
  - repeat constructor; lia.
  - exists 1%Z, 5%Z. repeat split; try reflexivity.
  - exists 1%Z, 5%Z. repeat split; try reflexivity.
Defined.

Lemma align_rederives_original_counterexample :
  ∃ dfs2 ds parts st',
    align [ex_coarse; ex_fine] st0 = (Ok (dfs2, ds, parts), st') ∧
    rederive 0 ds parts = [1; 3; 5]%Z ∧
    rederive 0 ds parts ≠ divisions ex_coarse.
Proof.
  eexists _, _, _, _. split; [vm_compute; reflexivity|].
  split; [vm_compute; reflexivity|]. vm_compute. congruence.
Qed.

(** C5.  [join_indexed_dataframes] with an unknown join kind: both inputs
    have been repartitioned and two tokens drawn when [required[how]] raises
    [KeyError].  [concat_indexed_dataframes] on the same inputs raises before
    anything else happens. *)
Theorem join_unknown_kind_aligns_first :
  join_indexed_dataframes (H := toy_pandas) ex_low ex_high "cross" "" "" st0
  = (Raise KeyError,
     mkState 3 [Repartition "a" [1; 3]%Z; Repartition "b" [5; 7]%Z]) ∧
  concat_indexed_dataframes (H := toy_pandas) [ex_low; ex_high] "cross" st0
  = (Raise AssertionError, st0).
Proof. split; vm_compute; reflexivity. Qed.

Lemma doctest_contiguous i : contiguous i doctest_parts.
Proof.
  intros j1 j2 j3 H12 H23 (p1 & k1 & Hp1 & Hk1) (p3 & k3 & Hp3 & Hk3).
  pose proof (lookup_lt_Some _ _ _ Hp3) as Hlt. simpl in Hlt.
  destruct i as [|[|i]].
  - assert (j3 ≠ 3) by (intros ->; by simplify_eq/=).
    unfold slot_present.
    destruct j2 as [|[|[|j2]]]; [simpl; eauto..|lia].
  - assert (j1 ≠ 0) by (intros ->; by simplify_eq/=).
    unfold slot_present.
    destruct j2 as [|[|[|[|j2]]]]; [lia|simpl; eauto..|lia].
  - destruct j1 as [|[|[|[|j1]]]]; by simplify_eq/=.
Qed.

Lemma require_inner_spec_witness :
  Forall (λ p, ∃ a b, p = [Some a; Some b]) (take 2 (drop 1 doctest_parts)) ∧
  length [3; 5; 7]%Z = length (take 2 (drop 1 doctest_parts)) + 1 ∧
  ∃ rows0 rows1 lo0 hi0 lo1 hi1,
    present 0 doctest_parts = Ok rows0 ∧ py_min rows0 = Ok lo0 ∧ py_max rows0 = Ok hi0 ∧
    present 1 doctest_parts = Ok rows1 ∧ py_min rows1 = Ok lo1 ∧ py_max rows1 = Ok hi1 ∧
    lo0 `max` lo1 ≤ hi0 `min` hi1 ∧
    take 2 (drop 1 doctest_parts)
    = slice doctest_parts (lo0 `max` lo1) (hi0 `min` hi1 + 1) ∧
    [3; 5; 7]%Z = slice doctest_divisions (lo0 `max` lo1) (hi0 `min` hi1 + 2).
Proof.
  apply (require_inner_spec doctest_divisions doctest_parts).
  - reflexivity.
  - repeat constructor.
  - apply doctest_contiguous.
  - apply doctest_contiguous.
  - reflexivity.
Defined.

Lemma require_inner_counterexample :
  require holed_divisions holed_parts (Some [0; 1]) = Ok (holed_divisions, holed_parts) ∧
  holed_parts !! 1 = Some [None; Some ("b", 1)] ∧
  ¬ Forall (λ p, ∃ a b, p = [Some a; Some b]) holed_parts.
Proof.
  split; [reflexivity|]. split; [reflexivity|].
  intros Hall. rewrite Forall_lookup in Hall.
  destruct (Hall 1 [None; Some ("b", 1)] eq_refl) as (a & b & Hab). discriminate Hab.
Qed.

Lemma hash_join_default_witness :
  ∃ out st',
    hash_join (H := toy_pandas) ex_low "x" ex_fine "y" "inner" None ("_x", "_y") st0
    = (Ok out, st') ∧
    calls st' = calls st0 ++ [Shuffle "a" "x" 2; Shuffle "b" "y" 2] ∧
    (∀ i, (Z.of_nat i < 2)%Z →
       ∃ l r, dask out !! (_name out, i)
              = Some (Some (MergeTask ("_x", "_y") (l, i) (r, i) "inner" "x" "y"))) ∧
    divisions out = replicate 3 None ∧
    Z.of_nat (length (divisions out)) = 3%Z.
Proof.
  apply (hash_join_default (H := toy_pandas) ex_low ex_fine "x" "y" "inner"
           ("_x", "_y") ["x"; "y"] st0).
  reflexivity.
Defined.

Lemma align_common_boundaries_witness :
  ∃ dfs2 ds parts st',
    align [ex_single_row; ex_inside] st0 = (Ok (dfs2, ds, parts), st') ∧
    Sorted Z.lt ds ∧
    (∀ x, x ∈ ds ↔ ∃ df, df ∈ [ex_single_row; ex_inside] ∧ x ∈ divisions df) ∧
    length ds
    = size (list_to_set (C := gset Z) (mjoin (divisions <$> [ex_single_row; ex_inside]))) ∧
    length parts + 1 = length ds ∧
    Forall2 (λ df df2,
               Sorted Z.lt (divisions df2) ∧
               (∀ x, x ∈ divisions df → x ∈ divisions df2) ∧
               (¬ NoDup (divisions df) →
                (∀ other, other ∈ [ex_single_row; ex_inside] → covers df other) →
                length (divisions df2) < length (divisions df)))
            [ex_single_row; ex_inside] dfs2.
Proof.
  apply (align_common_boundaries [ex_single_row; ex_inside] st0).
  - discriminate.
  - repeat constructor; (lia || discriminate).
Defined.

Lemma align_single_row_counterexample :
  ∃ df2 other2 ds parts st',
    align [ex_single_row; ex_inside] st0 = (Ok ([df2; other2], ds, parts), st') ∧
    divisions ex_single_row = [1; 1; 3]%Z ∧
    divisions df2 = [1; 2; 3]%Z ∧
    ¬ length (divisions df2) < length (divisions ex_single_row).
Proof.
  eexists _, _, _, _, _. split; [vm_compute; reflexivity|].
  split; [reflexivity|]. split; [reflexivity|]. simpl. lia.
Qed.

(** * Further properties *)

(** ** The alignment matrix of any number of datasets *)

Lemma align_cell_step dfs2 d L inds k df j :
  dfs2 !! k = Some df → inds !! k = Some j →
  align_cell dfs2 d (L, inds) k = (L ++ [cell d df j], <[k := advance d df j]> inds).
Proof.
  intros Hdf Hj. unfold align_cell, cell, advance, at_cursor. rewrite Hj, Hdf.
  destruct (_ && _); [done|]. by rewrite list_insert_id.
Qed.

Lemma align_row_from dfs2 d m :
  ∀ k L inds,
    k + m = length dfs2 → length inds = length dfs2 →
    foldl (align_cell dfs2 d) (L, inds) (seq k m)
    = (L ++ zip_with (cell d) (drop k dfs2) (drop k inds),
       take k inds ++ zip_with (advance d) (drop k dfs2) (drop k inds)).
Proof.
  induction m as [|m IH]; intros k L inds Hk Hlen.
  - rewrite !drop_ge, take_ge by lia. by rewrite !app_nil_r.
  - destruct (lookup_lt_is_Some_2 dfs2 k) as [df Hdf]; [lia|].
    destruct (lookup_lt_is_Some_2 inds k) as [j Hj]; [lia|].
    cbn [seq foldl]. rewrite (align_cell_step _ _ _ _ _ _ _ Hdf Hj).
    rewrite IH by (rewrite ?length_insert; lia).
    rewrite (drop_S _ _ _ Hdf), (drop_S _ _ _ Hj). cbn [zip_with].
    rewrite drop_insert_lt by lia.
    rewrite (take_S_r _ _ (advance d df j)).
    2:{ apply list_lookup_insert_eq. by eapply lookup_lt_Some. }
    rewrite take_insert_ge by lia.
    by rewrite <-!app_assoc.
Qed.

(** One pass of the inner loop, for all inputs at once. *)
Lemma align_row_spec n dfs2 d inds :
  length dfs2 = n → length inds = n →
  align_row n dfs2 d inds = (zip_with (cell d) dfs2 inds, zip_with (advance d) dfs2 inds).
Proof.
  intros Hn Hlen. unfold align_row.
  rewrite (align_row_from dfs2 d n 0 [] inds) by lia. by rewrite !drop_0.
Qed.

Lemma align_rows_width n dfs2 ds inds :
  length dfs2 = n → length inds = n →
  Forall (λ row : list (option key), length row = n) (align_rows n dfs2 ds inds).
Proof.
  intros Hn. revert inds. induction ds as [|d ds IH]; intros inds Hlen; [constructor|].
  cbn [align_rows]. rewrite align_row_spec by done.
  constructor; [rewrite length_zip_with; lia|].
  apply IH. rewrite length_zip_with. lia.
Qed.

(** Slot [k] of the rows is the column of the [k]-th repartitioned input. *)
Lemma align_rows_column n dfs2 ds inds k df j :
  length dfs2 = n → length inds = n →
  dfs2 !! k = Some df → inds !! k = Some j →
  (λ row : list (option key), row !! k) <$> align_rows n dfs2 ds inds
  = Some <$> column df ds j.
Proof.
  intros Hn Hlen Hdf. revert inds j Hlen.
  induction ds as [|d ds IH]; intros inds j Hlen Hj; [done|].
  cbn [align_rows column]. rewrite align_row_spec by done. cbn [fmap list_fmap].
  rewrite (IH _ (advance d df j)).
  - assert (zip_with (cell d) dfs2 inds !! k = Some (cell d df j)) as ->.
    { apply lookup_zip_with_Some. eauto. }
    unfold cell, advance, at_cursor. by destruct (_ && _).
  - rewrite length_zip_with. lia.
  - apply lookup_zip_with_Some. eauto.
Qed.

Lemma bound_each_length ds dfs ontos :
  bound_each ds dfs = Ok ontos → length ontos = length dfs.
Proof.
  revert ontos. induction dfs as [|df dfs IH]; intros ontos Hb; simpl in Hb.
  - by injection Hb as <-.
  - destruct (first (divisions df)); [|discriminate Hb].
    destruct (final (divisions df)); [|discriminate Hb].
    destruct (bound_each ds dfs) as [rest|]; [|discriminate Hb].
    injection Hb as <-. simpl. by rewrite (IH rest).
Qed.

Lemma align_cases (dfs : list (DataFrame Z)) (st : State) :
  (Exists (λ df, divisions df = []) dfs ∧ align dfs st = (Raise IndexError, st)) ∨
  (Forall (λ df, divisions df ≠ []) dfs ∧ ∃ r st', align dfs st = (Ok r, st')).
Proof.
  destruct (decide (Forall (λ df, divisions df ≠ []) dfs)) as [Hall|Hnot].
  - right. split; [done|]. destruct (align_ok dfs st Hall) as (dfs2 & st' & Ha & _). eauto.
  - left. apply not_Forall_Exists in Hnot; [|apply _].
    assert (Exists (λ df, divisions df = []) dfs) as Hex.
    { eapply Exists_impl; [exact Hnot|]. intros df Hdf. simpl in Hdf.
      by destruct (decide (divisions df = [])). }
    split; [done|]. by apply align_raises.
Qed.


(** X2.  Whatever [align] returns has the shape of an alignment: one
    repartitioned dataset per input, common boundaries without repetition that
    are exactly the boundaries of the inputs, one row per adjacent pair of
    common boundaries, one slot per input in every row, and one call to
    [repartition] per input, in order. *)
Theorem align_matrix_shape (dfs dfs2 : list (DataFrame Z)) (ds : list Z)
    (parts : list (list (option key))) (st st' : State) :
  align dfs st = (Ok (dfs2, ds, parts), st') →
  length dfs2 = length dfs ∧
  NoDup ds ∧ (∀ x, x ∈ ds ↔ ∃ df, df ∈ dfs ∧ x ∈ divisions df) ∧
  length parts = length ds - 1 ∧
  Forall (λ row, length row = length dfs) parts ∧
  calls st' = calls st ++ zip_with (λ df df2, Repartition (_name df) (divisions df2)) dfs dfs2.
Proof.
  intros Halign.
  destruct (align_cases dfs st) as [[_ Hraise]|[Hall _]];
    [rewrite Hraise in Halign; discriminate Halign|].
  destruct (align_ok dfs st Hall) as (dfs2' & st1 & Ha & Hdivs & _ & _ & Hcalls).
  rewrite Ha in Halign. injection Halign as <- <- <- <-.
  assert (length dfs2' = length dfs) as Hlen.
  { apply (f_equal length) in Hdivs. unfold targets in Hdivs.
    by rewrite !length_fmap in Hdivs. }
  split; [done|]. split; [apply unique_from_NoDup|]. split; [apply elem_of_common|].
  split; [rewrite align_rows_length; unfold init; rewrite length_take; lia|].
  split; [apply align_rows_width; [done|by rewrite length_replicate]|].
  rewrite Hcalls, <-Hdivs. f_equal. clear.
  revert dfs2'. induction dfs as [|df dfs IH]; intros [|df2 dfs2]; simpl; f_equal; auto.
Qed.

(** X3.  The alignment of any number of datasets with non-decreasing,
    non-empty boundaries, seen from one input [k]: it is repartitioned onto
    the run of common boundaries from its first to its last boundary, and its
    slot is absent on the rows below that run, refers to its partitions
    [0, 1, 2, ...] in order on the rows that start at a boundary of the run
    other than the last, and is absent on all later rows. *)
Theorem align_slot_structure (dfs : list (DataFrame Z)) (st : State)
    (k : nat) (df : DataFrame Z) :
  Forall (λ df, Sorted Z.le (divisions df) ∧ divisions df ≠ []) dfs →
  dfs !! k = Some df →
  ∃ dfs2 ds parts st' df2 pre post lo hi,
    align dfs st = (Ok (dfs2, ds, parts), st') ∧ dfs2 !! k = Some df2 ∧
    head (divisions df) = Some lo ∧ last (divisions df) = Some hi ∧
    head (divisions df2) = Some lo ∧ last (divisions df2) = Some hi ∧
    ds = pre ++ divisions df2 ++ post ∧
    Forall (λ v, (v < lo)%Z) pre ∧ Forall (λ v, (hi < v)%Z) post ∧
    (λ row : list (option key), row !! k) <$> parts
    = Some <$> (replicate (length pre) None
                ++ refs (_name df2) 0 (length (divisions df2) - 1)
                ++ replicate (length post) None).
Proof.
  intros Hwf Hdf.
  assert (Forall (λ df, Sorted Z.le (divisions df)) dfs) as Hs.
  { eapply Forall_impl; [exact Hwf|]. by intros ? [? ?]. }
  assert (Forall (λ df, divisions df ≠ []) dfs) as Hne.
  { eapply Forall_impl; [exact Hwf|]. by intros ? [? ?]. }
  destruct (align_ok dfs st Hne) as (dfs2 & st' & Halign & Hdivs & _).
  set (ds := unique (merge_sorted (divisions <$> dfs))) in *.
  pose proof (common_increasing dfs Hs) as Hinc. fold ds in Hinc.
  assert (length dfs2 = length dfs) as Hlen.
  { apply (f_equal length) in Hdivs. unfold targets in Hdivs.
    by rewrite !length_fmap in Hdivs. }
  destruct (lookup_lt_is_Some_2 dfs2 k) as [df2 Hdf2].
  { rewrite Hlen. by eapply lookup_lt_Some. }
  apply fmap_eq_Forall2 in Hdivs.
  pose proof (Forall2_lookup_lr _ _ _ _ _ _ Hdivs Hdf Hdf2) as Hbound.
  pose proof (list_elem_of_lookup_2 _ _ _ Hdf) as Hin.
  rewrite Forall_forall in Hs, Hne.
  destruct (aligned_slot_intro ds df df2 Hinc (Hs _ Hin) (Hne _ Hin))
    as (pre & post & lo & hi & Hlo & Hhi & _ & Hsplit & Hcol & _ & Hlo2 & Hhi2 & _); [|done|].
  { intros x Hx. apply elem_of_common. eauto. }
  eexists dfs2, ds, _, st', df2, pre, post, lo, hi.
  split; [exact Halign|]. do 6 (split; [done|]).
  apply increasing_strongly in Hinc. rewrite Hsplit in Hinc.
  split; [|split].
  - apply Forall_forall. intros x Hx.
    apply (StronglySorted_app_1_elem_of _ _ _ x lo Hinc Hx).
    apply elem_of_app. left. by apply head_Some_elem_of.
  - apply Forall_forall. intros x Hx.
    apply StronglySorted_app_1_r in Hinc.
    apply (StronglySorted_app_1_elem_of _ _ _ hi x Hinc); [|done].
    by apply last_Some_elem_of.
  - rewrite <-Hcol. apply align_rows_column; try done.
    + by rewrite length_replicate.
    + apply lookup_replicate_2. by eapply lookup_lt_Some.
Qed.

Lemma refs_rows name n :
  (λ c : option key, [c]) <$> refs name 0 n = (λ i, [Some (name, i)]) <$> seq 0 n.
Proof. unfold refs. by rewrite <-list_fmap_compose. Qed.

Lemma rows_of_one_slot (parts : list (list (option key))) (col : list (option key)) :
  Forall (λ row, length row = 1) parts →
  (λ row : list (option key), row !! 0) <$> parts = Some <$> col →
  parts = (λ c, [c]) <$> col.
Proof.
  revert col. induction parts as [|row parts IH]; intros [|c col] Hw Hcol;
    simplify_eq/=; [done|].
  apply Forall_cons in Hw as [Hrow Hw].
  destruct row as [|c' [|? ?]]; simplify_eq/=. f_equal. by apply IH.
Qed.

(** X4.  Aligning a single dataset with non-decreasing boundaries: the
    common boundaries are its distinct boundaries (its own [divisions] when
    they are strictly increasing), it is repartitioned onto them, and the
    matrix has one row per partition, each holding that partition. *)
Theorem align_single (df : DataFrame Z) (st : State) :
  Sorted Z.le (divisions df) → divisions df ≠ [] →
  ∃ df2 ds st',
    align [df] st
    = (Ok ([df2], ds, (λ i, [Some (_name df2, i)]) <$> seq 0 (length ds - 1)), st') ∧
    divisions df2 = ds ∧ Sorted Z.lt ds ∧
    (∀ x, x ∈ ds ↔ x ∈ divisions df) ∧
    (Sorted Z.lt (divisions df) → ds = divisions df).
Proof.
  intros Hs Hne.
  destruct (align_ok [df] st) as (dfs2 & st' & Halign & Hdivs & _).
  { by repeat constructor. }
  set (ds := unique (merge_sorted (divisions <$> [df]))) in *.
  assert (Sorted Z.lt ds) as Hinc.
  { apply (common_increasing [df]). by repeat constructor. }
  assert (∀ x, x ∈ ds ↔ x ∈ divisions df) as Hds.
  { intros x. unfold ds. rewrite (elem_of_common [df]). set_solver. }
  unfold targets in Hdivs. cbn [fmap list_fmap] in Hdivs.
  destruct dfs2 as [|df2 [|? ?]]; try discriminate Hdivs.
  injection Hdivs as Hdf2.
  destruct (aligned_slot_intro ds df df2 Hinc Hs Hne)
    as (pre & post & lo & hi & Hlo & Hhi & _ & Hsplit & Hcol & Hinc2 & _ & _ & Hin & _);
    [by intros x; apply Hds|done|].
  assert (divisions df2 = ds) as Heq.
  { apply increasing_ext; [done..|]. intros x. rewrite Hin, Hds. split; [tauto|].
    intros Hx. split; [done|]. by apply (sorted_between (divisions df)). }
  assert (pre = [] ∧ post = []) as [-> ->].
  { apply (f_equal length) in Hsplit. rewrite Heq, !length_app in Hsplit.
    split; apply length_zero_iff_nil; lia. }
  simpl in Hcol. rewrite app_nil_r in Hcol.
  exists df2, ds, st'. split.
  - rewrite Halign. do 3 f_equal. cbn [length replicate].
    rewrite <-Heq at 2. rewrite <-refs_rows, <-Hcol.
    apply rows_of_one_slot.
    + apply (align_rows_width 1); done.
    + by apply (align_rows_column 1).
  - do 3 (split; [done|]). intros Hstrict. apply increasing_ext; done.
Qed.

(** ** [require] on any list of required slots *)

Lemma slice_all {A} (l : list A) n : length l ≤ n → slice l 0 n = l.
Proof. intros Hn. unfold slice. by rewrite drop_0, take_ge. Qed.

Lemma require_step_range {D} (divisions : list D) (parts : list (list (option key))) i
    (divisions' : list D) (parts' : list (list (option key))) :
  require_step (divisions, parts) i = Ok (divisions', parts') →
  ∃ lo hi,
    lo ≤ hi ∧ hi < length parts ∧ presence_range i parts lo hi ∧
    divisions' = slice divisions lo (hi + 2) ∧ parts' = slice parts lo (hi + 1).
Proof.
  intros (rows & lo & hi & Hp & Hlo & Hhi & -> & ->)%require_step_spec.
  pose proof (presence_range_intro _ _ _ _ _ Hp Hlo Hhi) as Hr.
  destruct Hr as (Pl & Ph & Pr). exists lo, hi.
  split; [by apply Pr|]. split; [|done].
  destruct Ph as (p & k & Hp' & _). by apply lookup_lt_Some in Hp'.
Qed.

Lemma require_loop_range {D} (divisions : list D) (parts : list (list (option key)))
    required (divisions' : list D) (parts' : list (list (option key))) :
  require_loop (divisions, parts) required = Ok (divisions', parts') →
  ∃ a b, parts' = slice parts a b ∧ divisions' = slice divisions a (b + 1).
Proof.
  revert divisions parts.
  induction required as [|i required IH]; intros divisions parts Hloop.
  - injection Hloop as <- <-. exists 0, (length parts `max` length divisions).
    rewrite !slice_all by lia. done.
  - cbn [require_loop] in Hloop.
    destruct (require_step (divisions, parts) i) as [[d1 p1]|] eqn:Hstep;
      cbn [mbind res_mbind res_bind] in Hloop; [|discriminate Hloop].
    apply require_step_range in Hstep as (lo & hi & _ & _ & _ & -> & ->).
    destruct (IH _ _ Hloop) as (a & b & -> & ->).
    exists (lo + a), ((hi + 1) `min` (lo + b)).
    rewrite !slice_slice. split; f_equal; lia.
Qed.

(** X5.  [require] only cuts: whatever it returns is one contiguous range
    of the rows it was given, in their order, together with the boundaries of
    that range. *)
Theorem require_cuts_a_range {D} (divisions : list D) (parts : list (list (option key)))
    (required : option (list nat)) (divisions' : list D)
    (parts' : list (list (option key))) :
  require divisions parts required = Ok (divisions', parts') →
  ∃ a b, parts' = slice parts a b ∧ divisions' = slice divisions a (b + 1).
Proof.
  intros Hreq. apply (require_loop_range _ _ (default [] required)).
  destruct required as [[|i required]|]; exact Hreq.
Qed.

Lemma require_loop_nonempty {D} (divisions : list D) (parts : list (list (option key)))
    required (divisions' : list D) (parts' : list (list (option key))) :
  required ≠ [] →
  require_loop (divisions, parts) required = Ok (divisions', parts') →
  parts' ≠ [] ∧ (length divisions = length parts + 1 → length divisions' = length parts' + 1).
Proof.
  revert divisions parts.
  induction required as [|i required IH]; intros divisions parts Hne Hloop; [done|].
  cbn [require_loop] in Hloop.
  destruct (require_step (divisions, parts) i) as [[d1 p1]|] eqn:Hstep;
    cbn [mbind res_mbind res_bind] in Hloop; [|discriminate Hloop].
  apply require_step_range in Hstep as (lo & hi & Hle & Hlt & _ & -> & ->).
  assert (length (slice parts lo (hi + 1)) = hi + 1 - lo) as Hp1.
  { rewrite slice_length. lia. }
  destruct required as [|j required].
  - injection Hloop as <- <-. split.
    + intros E. rewrite E in Hp1. simpl in Hp1. lia.
    + intros Hlen. rewrite Hp1, slice_length. lia.
  - destruct (IH _ _ ltac:(done) Hloop) as [Hne' Hlen']. split; [done|].
    intros Hlen. apply Hlen'. rewrite Hp1, slice_length. lia.
Qed.

(** X6.  With a non-empty [required], [require] never returns an empty
    matrix: at least one row survives whenever it returns, and the result has
    one boundary more than rows if the input had. *)
Theorem require_keeps_a_row {D} (divisions : list D) (parts : list (list (option key)))
    (required : list nat) (divisions' : list D) (parts' : list (list (option key))) :
  required ≠ [] →
  require divisions parts (Some required) = Ok (divisions', parts') →
  parts' ≠ [] ∧
  (length divisions = length parts + 1 → length divisions' = length parts' + 1).
Proof.
  intros Hne Hreq. apply (require_loop_nonempty divisions parts required); [done|].
  destruct required; [done|exact Hreq].
Qed.

Lemma contiguous_slice i (parts : list (list (option key))) a b :
  contiguous i parts → contiguous i (slice parts a b).
Proof.
  intros Hc j1 j2 j3 H12 H23. rewrite !slot_present_slice.
  intros [? P1] [? P3]. split; [lia|].
  apply (Hc (a + j1) _ (a + j3)); [lia|lia|done..].
Qed.

Lemma Forall_slice {A} (P : A → Prop) (l : list A) a b :
  Forall P l → Forall P (slice l a b).
Proof. intros Hl. unfold slice. by apply Forall_drop, Forall_take. Qed.

Lemma require_loop_present {D} (divisions : list D) (parts : list (list (option key)))
    required (divisions' : list D) (parts' : list (list (option key))) :
  (∀ i, i ∈ required → contiguous i parts) →
  require_loop (divisions, parts) required = Ok (divisions', parts') →
  ∀ i, i ∈ required → Forall (λ p, ∃ k, p !! i = Some (Some k)) parts'.
Proof.
  revert divisions parts.
  induction required as [|i required IH]; intros divisions parts Hc Hloop j Hj;
    [by apply elem_of_nil in Hj|].
  cbn [require_loop] in Hloop.
  destruct (require_step (divisions, parts) i) as [[d1 p1]|] eqn:Hstep;
    cbn [mbind res_mbind res_bind] in Hloop; [|discriminate Hloop].
  apply require_step_range in Hstep as (lo & hi & Hle & Hlt & (Pl & Ph & Pr) & -> & ->).
  assert (Forall (λ p, ∃ k, p !! i = Some (Some k)) (slice parts lo (hi + 1))) as Hi.
  { apply Forall_lookup. intros r p Hr. rewrite slice_lookup in Hr.
    destruct (decide (lo + r < hi + 1)); [|done].
    destruct (Hc i ltac:(left) lo (lo + r) hi) as (p' & k & Hp' & Hk); [lia|lia|done..|].
    simplify_eq. eauto. }
  assert (∀ i', i' ∈ required → contiguous i' (slice parts lo (hi + 1))) as Hc'.
  { intros i' Hi'. apply contiguous_slice, Hc. by right. }
  destruct (decide (j ∈ required)) as [Hin|Hnin]; [by apply (IH _ _ Hc' Hloop)|].
  apply elem_of_cons in Hj as [->|Hj]; [|done].
  destruct (require_loop_range _ _ _ _ _ Hloop) as (a & b & -> & _).
  by apply Forall_slice.
Qed.

(** X7.  When in the given matrix the present rows of every required slot
    are consecutive (as in a matrix built by [align]), every row that
    [require] returns has every required slot present. *)
Theorem require_rows_have_required_slots {D} (divisions : list D)
    (parts : list (list (option key))) (required : list nat)
    (divisions' : list D) (parts' : list (list (option key))) :
  (∀ i, i ∈ required → contiguous i parts) →
  require divisions parts (Some required) = Ok (divisions', parts') →
  ∀ i, i ∈ required → Forall (λ p, ∃ k, p !! i = Some (Some k)) parts'.
Proof.
  intros Hc Hreq. apply (require_loop_present divisions parts required divisions'); [done|].
  destruct required; [by injection Hreq as <- <-|exact Hreq].
Qed.

Lemma present_from_all i j (parts : list (list (option key))) :
  Forall (λ p, ∃ k, p !! i = Some (Some k)) parts →
  present_from i j parts = Ok (seq j (length parts)).
Proof.
  intros Hall. revert j. induction Hall as [|p parts [k Hk] _ IH]; intros j; [done|].
  simpl. by rewrite Hk, IH.
Qed.

Lemma py_min_seq n : py_min (seq 0 (S n)) = Ok 0.
Proof.
  destruct (py_min (seq 0 (S n))) as [lo|] eqn:E; [|done].
  apply py_min_spec in E as [_ Hle]. f_equal.
  specialize (Hle 0). rewrite elem_of_seq in Hle. lia.
Qed.

Lemma py_max_seq n : py_max (seq 0 (S n)) = Ok n.
Proof.
  destruct (py_max (seq 0 (S n))) as [hi|] eqn:E; [|done].
  apply py_max_spec in E as [Hin Hle]. f_equal.
  specialize (Hle n). rewrite elem_of_seq in Hle, Hin. lia.
Qed.

Lemma require_step_fixed {D} (divisions : list D) (parts : list (list (option key))) i :
  parts ≠ [] → length divisions = length parts + 1 →
  Forall (λ p, ∃ k, p !! i = Some (Some k)) parts →
  require_step (divisions, parts) i = Ok (divisions, parts).
Proof.
  intros Hne Hlen Hall. unfold require_step, present.
  rewrite (present_from_all _ _ _ Hall).
  destruct (length parts) as [|n] eqn:En; [by destruct parts|].
  cbn [mbind res_mbind res_bind]. rewrite py_min_seq. cbn [mbind res_mbind res_bind].
  rewrite py_max_seq. cbn [mbind res_mbind res_bind mret res_ret].
  rewrite !slice_all by lia. done.
Qed.

(** X8.  Pruning twice is pruning once: on a matrix with one boundary more
    than rows, in which the present rows of each required slot are
    consecutive, applying [require] to its own result with the same
    [required] returns that result unchanged. *)
Theorem require_idempotent {D} (divisions : list D) (parts : list (list (option key)))
    (required : list nat) (divisions' : list D) (parts' : list (list (option key))) :
  length divisions = length parts + 1 →
  (∀ i, i ∈ required → contiguous i parts) →
  require divisions parts (Some required) = Ok (divisions', parts') →
  require divisions' parts' (Some required) = Ok (divisions', parts').
Proof.
  intros Hlen Hc Hreq.
  destruct required as [|i0 required0] eqn:Ereq; [done|]. rewrite <-Ereq in *.
  assert (required ≠ []) as Hne by (by rewrite Ereq).
  assert (require_loop (divisions, parts) required = Ok (divisions', parts')) as Hloop.
  { rewrite Ereq in *. exact Hreq. }
  destruct (require_loop_nonempty _ _ _ _ _ Hne Hloop) as [Hne' Hlen'].
  specialize (Hlen' Hlen).
  pose proof (require_loop_present _ _ _ _ _ Hc Hloop) as Hall.
  assert (require_loop (divisions', parts') required = Ok (divisions', parts')) as Hfix.
  { clear -Hne' Hlen' Hall. induction required as [|i required IH]; [done|].
    cbn [require_loop]. rewrite require_step_fixed by (done || apply Hall; left).
    cbn [mbind res_mbind res_bind]. apply IH. intros j Hj. apply Hall. by right. }
  rewrite Ereq in *. exact Hfix.
Qed.

Lemma present_from_short i j (parts : list (list (option key))) :
  Exists (λ p : list (option key), length p ≤ i) parts →
  present_from i j parts = Raise IndexError.
Proof.
  intros Hex. revert j. induction parts as [|p parts IH]; intros j;
    [by apply Exists_nil in Hex|].
  simpl. destruct (p !! i) as [c|] eqn:Ep; [|done].
  apply Exists_cons in Hex as [Hp|Hex].
  - apply lookup_lt_Some in Ep. lia.
  - by rewrite (IH Hex).
Qed.

(** X9.  A required slot number that some row does not have makes
    [require] raise [IndexError] ([p[i]] on a row that is too short), whatever
    comes after it in [required]. *)
Theorem require_short_row_raises {D} (divisions : list D)
    (parts : list (list (option key))) (i : nat) (required : list nat) :
  Exists (λ p : list (option key), length p ≤ i) parts →
  require divisions parts (Some (i :: required)) = Raise IndexError.
Proof.
  intros Hex. cbn [require require_loop]. unfold require_step, present.
  by rewrite (present_from_short _ _ _ Hex).
Qed.

(** ** Left and right joins *)

Lemma py_min_seq_from p n : py_min (seq p (S n)) = Ok p.
Proof.
  destruct (py_min (seq p (S n))) as [lo|] eqn:E; [|done].
  apply py_min_spec in E as [Hin Hle]. f_equal.
  specialize (Hle p). rewrite elem_of_seq in Hle, Hin. lia.
Qed.

Lemma py_max_seq_from p n : py_max (seq p (S n)) = Ok (p + n).
Proof.
  destruct (py_max (seq p (S n))) as [hi|] eqn:E; [|done].
  apply py_max_spec in E as [Hin Hle]. f_equal.
  specialize (Hle (p + n)). rewrite elem_of_seq in Hle, Hin. lia.
Qed.



(** The entries of a column are references to partitions of its dataset. *)
Lemma column_form_Some p name n q r k :
  (replicate p None ++ refs name 0 n ++ replicate q None) !! r = Some (Some k) →
  k = (name, r - p) ∧ p ≤ r < p + n.
Proof.
  intros Hk.
  assert (p ≤ r < p + n) as Hr by (apply (column_form_lookup p name n q); eauto).
  split; [|done].
  rewrite lookup_app_r, length_replicate in Hk by (rewrite length_replicate; lia).
  rewrite lookup_app_l in Hk by (rewrite refs_length; lia).
  unfold refs in Hk. rewrite list_lookup_fmap, lookup_seq_lt in Hk by lia.
  by simplify_eq/=.
Qed.

Lemma column_form_ref p name n q r :
  p ≤ r < p + n →
  (replicate p None ++ refs name 0 n ++ replicate q None) !! r = Some (Some (name, r - p)).
Proof.
  intros Hr.
  destruct (proj2 (column_form_lookup p name n q r) Hr) as [k Hk].
  by destruct (column_form_Some _ _ _ _ _ _ Hk) as [-> _].
Qed.



(** ** Outer joins *)

Lemma increasing_head_least (l : list Z) lo x :
  Sorted Z.lt l → head l = Some lo → x ∈ l → (lo ≤ x)%Z.
Proof.
  intros Hs Hlo Hx. destruct l as [|y l]; simplify_eq/=.
  apply increasing_strongly, StronglySorted_cons in Hs as [Hall _].
  rewrite Forall_forall in Hall.
  apply elem_of_cons in Hx as [->|Hx]; [lia|]. specialize (Hall _ Hx). lia.
Qed.

Lemma increasing_last_greatest (l : list Z) hi x :
  Sorted Z.lt l → last l = Some hi → x ∈ l → (x ≤ hi)%Z.
Proof.
  intros Hs Hhi Hx. apply last_Some in Hhi as [l' ->].
  apply increasing_strongly in Hs.
  apply elem_of_app in Hx as [Hx|Hx%list_elem_of_singleton]; [|lia].
  pose proof (StronglySorted_app_1_elem_of _ _ _ x hi Hs Hx ltac:(left)). lia.
Qed.

(** X13.  An outer join prunes nothing: for two datasets with
    non-decreasing, non-empty boundaries, whenever the schema inference
    returns, the boundaries of the result are all the boundaries of both
    inputs, once each and in increasing order, from the smaller of the two
    first boundaries to the larger of the two last ones, and its partitions
    are the rows of the alignment matrix. *)
Theorem outer_join_keeps_everything `{Pandas} (lhs rhs : DataFrame Z)
    (lsuffix rsuffix : string) (cols : list string) (st : State)
    (lo1 hi1 lo2 hi2 : Z) :
  Sorted Z.le (divisions lhs) → Sorted Z.le (divisions rhs) →
  head (divisions lhs) = Some lo1 → last (divisions lhs) = Some hi1 →
  head (divisions rhs) = Some lo2 → last (divisions rhs) = Some hi2 →
  join_columns (columns lhs) (columns rhs) "outer" lsuffix rsuffix = Ok cols →
  ∃ dfs2 ds parts st1 out st2,
    align [lhs; rhs] st = (Ok (dfs2, ds, parts), st1) ∧
    join_indexed_dataframes lhs rhs "outer" lsuffix rsuffix st = (Ok out, st2) ∧
    divisions out = ds ∧ columns out = cols ∧
    Sorted Z.lt ds ∧
    (∀ x, x ∈ ds ↔ x ∈ divisions lhs ∨ x ∈ divisions rhs) ∧
    head ds = Some (Z.min lo1 lo2) ∧
    last ds = Some (Z.max hi1 hi2) ∧
    length parts = length ds - 1.
Proof.
  intros HsL HsR Hlo1 Hhi1 Hlo2 Hhi2 Hcols.
  assert (divisions lhs ≠ []) as HneL by (intros E; by rewrite E in Hlo1).
  assert (divisions rhs ≠ []) as HneR by (intros E; by rewrite E in Hlo2).
  destruct (align_pair lhs rhs st HsL HsR HneL HneR)
    as (lhs2 & rhs2 & st1 & Halign & _ & _ & HcL & HcR & _).
  set (ds := unique (merge_sorted [divisions lhs; divisions rhs])) in *.
  assert (Sorted Z.lt ds) as Hinc.
  { apply (common_increasing [lhs; rhs]). by repeat constructor. }
  assert (∀ x, x ∈ ds ↔ x ∈ divisions lhs ∨ x ∈ divisions rhs) as Hds.
  { intros x. unfold ds. rewrite (elem_of_common [lhs; rhs]). set_solver. }
  pose proof (join_indexed_run lhs rhs "outer" lsuffix rsuffix st lhs2 rhs2 ds _ st1
                [] ds _ cols Halign required_outer eq_refl) as Hjoin.
  rewrite HcL, HcR in Hjoin.
  specialize (Hjoin (pair_rows _ _) Hcols). cbv zeta in Hjoin.
  eexists [lhs2; rhs2], ds, _, st1, _, _.
  split; [exact Halign|]. split; [exact Hjoin|]. cbn [divisions columns].
  do 4 (split; [done|]).
  assert (∀ x, x ∈ divisions lhs → (lo1 ≤ x ≤ hi1)%Z) as HrL.
  { intros x. by apply sorted_between. }
  assert (∀ x, x ∈ divisions rhs → (lo2 ≤ x ≤ hi2)%Z) as HrR.
  { intros x. by apply sorted_between. }
  pose proof (head_Some_elem_of _ _ Hlo1) as Hin1.
  pose proof (head_Some_elem_of _ _ Hlo2) as Hin2.
  pose proof (last_Some_elem_of _ _ Hhi1) as Hin3.
  pose proof (last_Some_elem_of _ _ Hhi2) as Hin4.
  split; [|split].
  - destruct (head ds) as [m|] eqn:Hm.
    2:{ apply head_None in Hm. rewrite Hm in Hds.
        specialize (Hds lo1). set_solver. }
    f_equal.
    pose proof (head_Some_elem_of _ _ Hm) as Hmin. apply Hds in Hmin.
    assert (Z.min lo1 lo2 ∈ ds) as Hx.
    { apply Hds. destruct (Z.min_spec lo1 lo2) as [[_ ->]|[_ ->]]; auto. }
    pose proof (increasing_head_least ds m _ Hinc Hm Hx).
    destruct Hmin as [Hmin|Hmin]; [specialize (HrL _ Hmin)|specialize (HrR _ Hmin)]; lia.
  - destruct (last ds) as [m|] eqn:Hm.
    2:{ apply last_None in Hm. rewrite Hm in Hds.
        specialize (Hds lo1). set_solver. }
    f_equal.
    pose proof (last_Some_elem_of _ _ Hm) as Hmax. apply Hds in Hmax.
    assert (Z.max hi1 hi2 ∈ ds) as Hx.
    { apply Hds. destruct (Z.max_spec hi1 hi2) as [[_ ->]|[_ ->]]; auto. }
    pose proof (increasing_last_greatest ds m _ Hinc Hm Hx).
    destruct Hmax as [Hmax|Hmax]; [specialize (HrL _ Hmax)|specialize (HrR _ Hmax)]; lia.
  - rewrite length_zip_with, !column_length. unfold init. rewrite length_take. lia.
Qed.

(** ** Inner joins *)

Lemma increasing_lookup_lt (l : list Z) i j x y :
  Sorted Z.lt l → l !! i = Some x → l !! j = Some y → i < j → (x < y)%Z.
Proof.
  intros Hs Hi Hj Hij. apply increasing_strongly in Hs.
  rewrite <-(take_drop j l) in Hs.
  apply (StronglySorted_app_1_elem_of _ _ _ x y Hs).
  - apply (list_elem_of_lookup_2 _ i). by rewrite lookup_take_lt.
  - apply (list_elem_of_lookup_2 _ 0). by rewrite lookup_drop, Nat.add_0_r.
Qed.

Lemma increasing_lookup_le (l : list Z) i j x y :
  Sorted Z.lt l → l !! i = Some x → l !! j = Some y → i ≤ j → (x ≤ y)%Z.
Proof.
  intros Hs Hi Hj Hij. destruct (decide (i = j)) as [->|Hne].
  - assert (x = y) by congruence. lia.
  - pose proof (increasing_lookup_lt l i j x y Hs Hi Hj). lia.
Qed.

Lemma increasing_lookup_lt_inv (l : list Z) i j x y :
  Sorted Z.lt l → l !! i = Some x → l !! j = Some y → (x < y)%Z → i < j.
Proof.
  intros Hs Hi Hj Hxy. destruct (decide (i < j)) as [|Hge]; [done|].
  pose proof (increasing_lookup_le l j i y x Hs Hj Hi). lia.
Qed.

Lemma require_step_ok {D} (divisions : list D) (parts : list (list (option key))) i j :
  Forall (λ p : list (option key), i < length p) parts → slot_present i parts j →
  ∃ r, require_step (divisions, parts) i = Ok r.
Proof.
  intros Hrows Hj. unfold require_step, present.
  destruct (present_from_total i 0 parts Hrows) as [rows Hp]. rewrite Hp.
  assert (j ∈ rows) as Hin.
  { apply (present_from_spec i 0 parts rows Hp). rewrite Nat.sub_0_r. split; [lia|done]. }
  destruct (py_min_max_ok rows j Hin) as (lo & hi & Hlo & Hhi).
  cbn [mbind res_mbind res_bind]. rewrite Hlo. cbn [mbind res_mbind res_bind].
  rewrite Hhi. simpl. eauto.
Qed.

Lemma require_step_run {D} (divisions : list D) (parts : list (list (option key))) i p n :
  present i parts = Ok (seq p (S n)) →
  require_step (divisions, parts) i
  = Ok (slice divisions p (p + n + 2), slice parts p (p + n + 1)).
Proof.
  intros Hp. unfold require_step. rewrite Hp. cbn [mbind res_mbind res_bind].
  rewrite py_min_seq_from. cbn [mbind res_mbind res_bind].
  by rewrite py_max_seq_from.
Qed.

Lemma require_two_steps {D} (divisions : list D) (parts : list (list (option key)))
    i j r1 :
  require_step (divisions, parts) i = Ok r1 →
  require divisions parts (Some [i; j]) = require_step r1 j.
Proof.
  intros Hstep. cbn [require require_loop]. rewrite Hstep.
  cbn [mbind res_mbind res_bind]. by destruct (require_step r1 j).
Qed.

(** The boundaries of a dataset sit in the common boundaries at the rows of
    its column. *)
Lemma aligned_slot_ends (ds pre mid post : list Z) lo hi n :
  ds = pre ++ mid ++ post → head mid = Some lo → last mid = Some hi →
  length mid = S n →
  ds !! length pre = Some lo ∧ ds !! (length pre + n) = Some hi.
Proof.
  intros -> Hlo Hhi Hlen. split.
  - rewrite lookup_app_r, Nat.sub_diag, lookup_app_l by lia. by rewrite <-head_lookup.
  - rewrite lookup_app_r by lia. rewrite lookup_app_l by lia.
    rewrite last_lookup, Hlen in Hhi. simpl in Hhi. rewrite <-Hhi. f_equal. lia.
Qed.

Lemma slice_ends {A} (l : list A) a b x y :
  a ≤ b → l !! a = Some x → l !! b = Some y →
  head (slice l a (b + 1)) = Some x ∧ last (slice l a (b + 1)) = Some y ∧
  length (slice l a (b + 1)) = b + 1 - a.
Proof.
  intros Hab Ha Hb. pose proof (lookup_lt_Some _ _ _ Hb) as Hlt.
  assert (length (slice l a (b + 1)) = b + 1 - a) as Hlen.
  { rewrite slice_length. lia. }
  split; [|split; [|done]].
  - rewrite head_lookup, slice_lookup, decide_True by lia. by rewrite Nat.add_0_r.
  - rewrite last_lookup, Hlen, slice_lookup, decide_True by lia.
    rewrite <-Hb. f_equal. lia.
Qed.

(** X14.  An inner join of two datasets whose ranges overlap in more than
    one point keeps exactly the overlap: whenever the schema inference
    returns, the boundaries of the result are the common boundaries from the
    larger of the two first boundaries to the smaller of the two last ones,
    and every partition of the result joins a partition of the repartitioned
    left input with a partition of the repartitioned right input. *)
Theorem inner_join_keeps_overlap `{Pandas} (lhs rhs : DataFrame Z)
    (lsuffix rsuffix : string) (cols : list string) (st : State)
    (lo1 hi1 lo2 hi2 : Z) :
  Sorted Z.le (divisions lhs) → Sorted Z.le (divisions rhs) →
  head (divisions lhs) = Some lo1 → last (divisions lhs) = Some hi1 →
  head (divisions rhs) = Some lo2 → last (divisions rhs) = Some hi2 →
  (Z.max lo1 lo2 < Z.min hi1 hi2)%Z →
  join_columns (columns lhs) (columns rhs) "inner" lsuffix rsuffix = Ok cols →
  ∃ lhs2 rhs2 ds parts st1 out st2,
    align [lhs; rhs] st = (Ok ([lhs2; rhs2], ds, parts), st1) ∧
    join_indexed_dataframes lhs rhs "inner" lsuffix rsuffix st = (Ok out, st2) ∧
    columns out = cols ∧
    head (divisions out) = Some (Z.max lo1 lo2) ∧
    last (divisions out) = Some (Z.min hi1 hi2) ∧
    (∀ x, x ∈ divisions out ↔
          (x ∈ divisions lhs ∨ x ∈ divisions rhs) ∧ (Z.max lo1 lo2 ≤ x ≤ Z.min hi1 hi2)%Z) ∧
    Sorted Z.lt (divisions out) ∧
    ∀ i, i < length (divisions out) - 1 →
      ∃ a b, dask out !! (_name out, i)
             = Some (Some (JoinTask (Part (_name lhs2, a)) (Part (_name rhs2, b))
                             "inner" lsuffix rsuffix)).
Proof.
  intros HsL HsR Hlo1 Hhi1 Hlo2 Hhi2 Hover Hcols.
  assert (divisions lhs ≠ []) as HneL by (intros E; by rewrite E in Hlo1).
  assert (divisions rhs ≠ []) as HneR by (intros E; by rewrite E in Hlo2).
  destruct (align_pair lhs rhs st HsL HsR HneL HneR)
    as (lhs2 & rhs2 & st1 & Halign & HslotL & HslotR & HcL & HcR & _).
  set (ds := unique (merge_sorted [divisions lhs; divisions rhs])) in *.
  assert (Sorted Z.lt ds) as Hinc.
  { apply (common_increasing [lhs; rhs]). by repeat constructor. }
  assert (∀ x, x ∈ ds ↔ x ∈ divisions lhs ∨ x ∈ divisions rhs) as Hds.
  { intros x. unfold ds. rewrite (elem_of_common [lhs; rhs]). set_solver. }
  destruct (aligned_contiguous ds lhs rhs lhs2 rhs2 HslotL HslotR) as [Hc0 Hc1].
  destruct HslotL as (preL & postL & l1 & h1 & Hl1 & Hh1 & _ & HdsL & HcolL & _ &
                      HloL & HhiL & _ & HtwoL).
  destruct HslotR as (preR & postR & l2 & h2 & Hl2 & Hh2 & _ & HdsR & HcolR & _ &
                      HloR & HhiR & _ & HtwoR).
  assert (l1 = lo1) as -> by congruence. assert (h1 = hi1) as -> by congruence.
  assert (l2 = lo2) as -> by congruence. assert (h2 = hi2) as -> by congruence.
  specialize (HtwoL ltac:(lia)). specialize (HtwoR ltac:(lia)).
  destruct (length (divisions lhs2)) as [|[|nL]] eqn:EnL; [lia..|].
  destruct (length (divisions rhs2)) as [|[|nR]] eqn:EnR; [lia..|].
  destruct (aligned_slot_ends ds preL _ postL lo1 hi1 (S nL) HdsL HloL HhiL EnL)
    as [HiL HjL].
  destruct (aligned_slot_ends ds preR _ postR lo2 hi2 (S nR) HdsR HloR HhiR EnR)
    as [HiR HjR].
  set (pL := length preL) in *. set (pR := length preR) in *.
  set (A := pL `max` pR). set (B := (pL + S nL) `min` (pR + S nR)).
  assert (ds !! A = Some (Z.max lo1 lo2)) as HA.
  { unfold A. destruct (Z.max_spec lo1 lo2) as [[Hlt ->]|[Hge ->]].
    - pose proof (increasing_lookup_lt_inv ds pL pR _ _ Hinc HiL HiR Hlt).
      by rewrite Nat.max_r by lia.
    - destruct (decide (pL < pR)) as [Hp|Hp]; [|by rewrite Nat.max_l by lia].
      pose proof (increasing_lookup_lt ds pL pR _ _ Hinc HiL HiR Hp). lia. }
  assert (ds !! B = Some (Z.min hi1 hi2)) as HB.
  { unfold B. destruct (Z.min_spec hi1 hi2) as [[Hlt ->]|[Hge ->]].
    - pose proof (increasing_lookup_lt_inv ds _ _ _ _ Hinc HjL HjR Hlt).
      by rewrite Nat.min_l by lia.
    - destruct (decide (pR + S nR < pL + S nL)) as [Hp|Hp];
        [by rewrite Nat.min_r by lia|].
      destruct (decide (pR + S nR = pL + S nL)) as [Heq|Hneq];
        [by rewrite Nat.min_r by lia|].
      pose proof (increasing_lookup_lt ds _ _ _ _ Hinc HjL HjR ltac:(lia)). lia. }
  pose proof (increasing_lookup_lt_inv ds A B _ _ Hinc HA HB Hover) as HAB.
  set (cL := column lhs2 (init ds) 0) in *. set (cR := column rhs2 (init ds) 0) in *.
  set (parts := zip_with (λ a b : option key, [a; b]) cL cR) in *.
  assert (length cL = length cR) as Hlen by (unfold cL, cR; by rewrite !column_length).
  assert (length ds = length parts + 1) as Hlends.
  { unfold parts, cL, cR. rewrite length_zip_with, !column_length. unfold init.
    rewrite length_take. apply lookup_lt_Some in HA. lia. }
  assert (present 0 parts = Ok (seq pL (S nL))) as Hp0.
  { unfold present, parts. rewrite (present_zip_l _ _ _ Hlen), HcolL.
    rewrite positions_column. do 2 f_equal; lia. }
  assert (present 1 parts = Ok (seq pR (S nR))) as Hp1.
  { unfold present, parts. rewrite (present_zip_r _ _ _ Hlen), HcolR.
    rewrite positions_column. do 2 f_equal; lia. }
  (* [require] returns *)
  assert (∃ ds' parts', require ds parts (Some [0; 1]) = Ok (ds', parts'))
    as (ds' & parts' & Hrequire).
  { rewrite (require_two_steps _ _ _ _ _ (require_step_run ds parts 0 pL nL Hp0)).
    destruct (require_step_ok (slice ds pL (pL + nL + 2))
                (slice parts pL (pL + nL + 1)) 1 (A - pL)) as [[d p] ->]; [| |by eauto].
    - apply Forall_slice. eapply Forall_impl; [apply pair_rows|]. simpl. lia.
    - apply slot_present_slice. split; [lia|].
      replace (pL + (A - pL)) with A by lia.
      apply (zip_slot_present_r _ _ _ Hlen). rewrite HcolR.
      apply column_form_lookup. lia. }
  destruct (require_inner_spec ds parts ds' parts' Hlends (pair_rows _ _) Hc0 Hc1 Hrequire)
    as (_ & _ & rows0 & rows1 & a0 & b0 & a1 & b1 & Hr0 & Ha0 & Hb0 & Hr1 & Ha1 & Hb1 &
        _ & Hparts' & Hds').
  assert (rows0 = seq pL (S nL)) as -> by congruence.
  assert (rows1 = seq pR (S nR)) as -> by congruence.
  rewrite py_min_seq_from in Ha0, Ha1. rewrite py_max_seq_from in Hb0, Hb1.
  injection Ha0 as <-. injection Ha1 as <-. injection Hb0 as <-. injection Hb1 as <-.
  replace ((pL + nL) `min` (pR + nR) + 1) with B in Hparts' by lia.
  replace ((pL + nL) `min` (pR + nR) + 2) with (B + 1) in Hds' by lia.
  fold A in Hparts', Hds'. subst ds' parts'.
  pose proof (join_indexed_run lhs rhs "inner" lsuffix rsuffix st lhs2 rhs2 ds parts st1
                [0; 1] _ _ cols Halign required_inner Hrequire) as Hjoin.
  rewrite HcL, HcR in Hjoin.
  specialize (Hjoin (Forall_slice _ _ _ _ (pair_rows _ _)) Hcols). cbv zeta in Hjoin.
  destruct (slice_ends ds A B _ _ ltac:(lia) HA HB) as (Hhead & Hlast & Hslen).
  eexists lhs2, rhs2, ds, parts, st1, _, _.
  split; [exact Halign|]. split; [exact Hjoin|]. cbn [divisions columns dask _name].
  do 3 (split; [done|]). split; [|split].
  - intros x. rewrite list_elem_of_lookup. split.
    + intros [i Hi]. rewrite slice_lookup in Hi.
      destruct (decide (A + i < B + 1)); [|done].
      split; [apply Hds; by eapply list_elem_of_lookup_2|].
      pose proof (increasing_lookup_le ds A (A + i) _ _ Hinc HA Hi).
      pose proof (increasing_lookup_le ds (A + i) B _ _ Hinc Hi HB). lia.
    + intros [[j Hj]%Hds%list_elem_of_lookup Hr].
      assert (A ≤ j ≤ B) as Hjr.
      { split.
        - destruct (decide (A ≤ j)); [done|].
          pose proof (increasing_lookup_lt ds j A _ _ Hinc Hj HA). lia.
        - destruct (decide (j ≤ B)); [done|].
          pose proof (increasing_lookup_lt ds B j _ _ Hinc HB Hj). lia. }
      exists (j - A). rewrite slice_lookup, decide_True by lia.
      rewrite <-Hj. f_equal. lia.
  - unfold slice. apply StronglySorted_Sorted.
    apply increasing_strongly in Hinc.
    rewrite <-(take_drop (B + 1) ds) in Hinc. apply StronglySorted_app_1_l in Hinc.
    rewrite <-(take_drop A (take (B + 1) ds)) in Hinc.
    by apply StronglySorted_app_1_r in Hinc.
  - intros i Hi. rewrite Hslen in Hi.
    assert (slice parts A B !! i
            = Some [Some (_name lhs2, A + i - pL); Some (_name rhs2, A + i - pR)]) as Hrow.
    { assert (cL !! (A + i) = Some (Some (_name lhs2, A + i - pL))) as HLi.
      { rewrite HcolL. apply column_form_ref. lia. }
      assert (cR !! (A + i) = Some (Some (_name rhs2, A + i - pR))) as HRi.
      { rewrite HcolR. apply column_form_ref. lia. }
      rewrite slice_lookup, decide_True by lia.
      apply lookup_zip_with_Some. eexists _, _. split; [done|]. split; [exact HLi|exact HRi]. }
    exists (A + i - pL), (A + i - pR).
    apply merge_lookup_last. by rewrite (graph_of_rows_lookup _ _ _ _ _ Hrow).
Qed.

(** ** [bound] as a filter *)

Lemma filter_all {A} (P : A → Prop) `{!∀ x, Decision (P x)} (l : list A) :
  Forall P l → filter P l = l.
Proof.
  induction 1 as [|x l Hx _ IH]; [done|]. by rewrite filter_cons_True, IH.
Qed.

Lemma filter_none {A} (P : A → Prop) `{!∀ x, Decision (P x)} (l : list A) :
  Forall (λ x, ¬ P x) l → filter P l = [].
Proof.
  induction 1 as [|x l Hx _ IH]; [done|]. by rewrite filter_cons_False.
Qed.

Lemma bound_empty_range (a : list Z) l r :
  Sorted Z.le a → (r < l)%Z → bound a l r = [].
Proof.
  intros Hs Hlr.
  destruct (bisect_left_spec a l Hs) as (Hl & _ & Hge).
  destruct (bisect_right_spec a r Hs) as (Hr & Hle & _).
  unfold bound, slice. apply drop_ge. rewrite length_take.
  destruct (decide (bisect_right a r ≤ bisect_left a l)) as [|Hgt]; [lia|].
  destruct (lookup_lt_is_Some_2 a (bisect_left a l)) as [v Hv]; [lia|].
  rewrite Forall_lookup in Hge. rewrite Forall_lookup in Hle.
  assert (l ≤ v)%Z by (apply (Hge 0); by rewrite lookup_drop, Nat.add_0_r).
  assert (v ≤ r)%Z by (apply (Hle (bisect_left a l)); rewrite lookup_take_lt; [done|lia]).
  lia.
Qed.

(** X18.  On a sorted sequence [bound] keeps exactly the items inside the
    closed range, in their order and with their repetitions, whatever [left]
    and [right] are; in particular the result is empty when [right < left]. *)
Theorem bound_is_filter (seq : list Z) (left right : Z) :
  Sorted Z.le seq →
  bound seq left right = filter (λ v, (left ≤ v ≤ right)%Z) seq.
Proof.
  intros Hs. destruct (decide (left ≤ right)%Z) as [Hle|Hgt].
  - destruct (bound_split seq left right Hs Hle) as (Hsplit & Hpre & Hmid & Hpost).
    rewrite Hsplit at 2. rewrite !filter_app.
    rewrite (filter_none _ (take _ _)), (filter_all _ (bound _ _ _)), (filter_none _ (drop _ _)).
    + by rewrite app_nil_r.
    + eapply Forall_impl; [exact Hpost|]. simpl. lia.
    + done.
    + eapply Forall_impl; [exact Hpre|]. simpl. lia.
  - rewrite bound_empty_range by (done || lia). symmetry. apply filter_none.
    apply Forall_forall. intros x _. lia.
Qed.

(** ** Datasets without boundaries *)

(** X19.  With a supported join kind, [concat_indexed_dataframes] raises the
    [IndexError] of [align] when one of the datasets has no boundary, and
    nothing has happened by then. *)
Theorem concat_needs_boundaries `{Pandas} (dfs : list (DataFrame Z))
    (join : string) (st : State) :
  join ∈ ["inner"; "outer"] → Exists (λ df, divisions df = []) dfs →
  concat_indexed_dataframes dfs join st = (Raise IndexError, st).
Proof.
  intros Hjoin Hex. unfold concat_indexed_dataframes.
  rewrite bool_decide_eq_true_2, lift_bind by done.
  rewrite (bind_raise _ _ st IndexError st); [done|]. by apply align_raises.
Qed.

(** ** [hash_join] with a given number of partitions *)


(** ** [concat_indexed_dataframes] *)

Lemma repartition_run (df : DataFrame Z) (onto : list Z) (st : State) :
  repartition df onto st
  = (Ok (mkDataFrame
           (merge [dask df;
                   list_to_map
                     ((λ i, (("repartition-merge" +:+ "-" +:+ pretty (tokens st), i),
                             Some (RepartitionTask (_name df) i)))
                        <$> seq 0 (length onto - 1))])
           ("repartition-merge" +:+ "-" +:+ pretty (tokens st)) (columns df) onto),
     mkState (S (tokens st)) (calls st ++ [Repartition (_name df) onto])).
Proof. reflexivity. Qed.

(** A key whose name does not start like the names given by [repartition] is
    not added to a graph by it. *)
Lemma repartition_each_fresh dfs ontos st dfs2 st' (k : key) :
  repartition_each dfs ontos st = (Ok dfs2, st') →
  (∀ t j, k ≠ ("repartition-merge" +:+ t, j)) →
  (∀ df, df ∈ dfs → dask df !! k = None) →
  ∀ df2, df2 ∈ dfs2 → dask df2 !! k = None.
Proof.
  intros Hrep Hk. revert ontos st dfs2 Hrep.
  induction dfs as [|df dfs IH]; intros [|onto ontos] st dfs2 Hrep Hdfs df2 Hdf2;
    cbn [repartition_each] in Hrep;
    try (injection Hrep as <- <-; by apply elem_of_nil in Hdf2).
  rewrite (bind_ok _ _ _ _ _ (repartition_run df onto st)) in Hrep.
  destruct (repartition_each dfs ontos
              (mkState (S (tokens st)) (calls st ++ [Repartition (_name df) onto])))
    as [[rest|e] st1] eqn:Hrest.
  2:{ rewrite (bind_raise _ _ _ _ _ Hrest) in Hrep. discriminate Hrep. }
  rewrite (bind_ok _ _ _ _ _ Hrest) in Hrep. injection Hrep as <- <-.
  apply elem_of_cons in Hdf2 as [->|Hdf2].
  - cbn [dask]. unfold merge. cbn [foldl].
    rewrite !lookup_union_None, lookup_empty. split; [|split; [|done]].
    + apply not_elem_of_list_to_map_1. rewrite <-list_fmap_compose.
      intros (j & Hj & _)%list_elem_of_fmap. by apply (Hk _ _ Hj).
    + apply Hdfs. by left.
  - apply (IH _ _ _ Hrest); [|done]. intros df' Hdf'. apply Hdfs. by right.
Qed.

Lemma merge_lookup_first (dsk : graph) (rest : list graph) k :
  Forall (λ d : graph, d !! k = None) rest → merge (dsk :: rest) !! k = dsk !! k.
Proof.
  intros Hrest. unfold merge. cbn [foldl].
  assert (∀ acc : graph, foldl (λ acc d, d ∪ acc) acc rest !! k = acc !! k) as Hfold.
  { induction Hrest as [|d rest Hd _ IH]; intros acc; [done|].
    cbn [foldl]. rewrite IH. by rewrite lookup_union_r. }
  rewrite Hfold. by rewrite lookup_union_l by apply lookup_empty.
Qed.

Lemma fill_part_lookup empties (row : list (option key)) k c cols :
  row !! k = Some c → empties !! k = Some cols →
  fill_part empties row !! k = Some (from_option Part (Empty cols) c).
Proof. intros Hc Hcols. unfold fill_part. apply lookup_zip_with_Some. eauto. Qed.

(** X16.  With a supported join kind, datasets that all have a boundary, a
    schema inference that returns, and input graphs without keys named like
    the result, [concat_indexed_dataframes] returns: the boundaries of the
    result are the common boundaries of [align], nothing is pruned, no
    collaborator is called after [align], and row [i] of the matrix becomes
    the concatenation task of partition [i], with one operand per input: the
    partition recorded in the slot, or the empty placeholder with the columns
    of that input where the slot is absent. *)
Theorem concat_fills_absent_slots `{Pandas} (dfs : list (DataFrame Z))
    (join : string) (cols : list string) (st : State) :
  join ∈ ["inner"; "outer"] →
  Forall (λ df, divisions df ≠ []) dfs →
  concat_columns (columns <$> dfs) join = Ok cols →
  (∀ df t i, df ∈ dfs → dask df !! ("concat-indexed" +:+ t, i) = None) →
  ∃ dfs2 ds parts st1 out st2,
    align dfs st = (Ok (dfs2, ds, parts), st1) ∧
    concat_indexed_dataframes dfs join st = (Ok out, st2) ∧
    columns out = cols ∧ divisions out = ds ∧ calls st2 = calls st1 ∧
    ∀ i row, parts !! i = Some row →
      ∃ ops,
        dask out !! (_name out, i) = Some (Some (ConcatTask ops join)) ∧
        length ops = length dfs ∧
        ∀ k df c, dfs !! k = Some df → row !! k = Some c →
          ops !! k = Some (from_option Part (Empty (columns df)) c).
Proof.
  intros Hjoin Hne Hcols Hfresh.
  set (ds := unique (merge_sorted (divisions <$> dfs))).
  destruct (repartition_each_ok dfs (targets ds dfs) st)
    as (dfs2 & st1 & Hrep & Hdivs & _).
  { unfold targets. by rewrite length_fmap. }
  assert (length dfs2 = length dfs) as Hlen.
  { apply (f_equal length) in Hdivs. unfold targets in Hdivs.
    by rewrite !length_fmap in Hdivs. }
  set (parts := align_rows (length dfs) dfs2 (init ds) (replicate (length dfs) 0)).
  assert (align dfs st = (Ok (dfs2, ds, parts), st1)) as Halign.
  { unfold align, mbind, M_mbind, m_bind, lift. fold ds.
    by rewrite (bound_each_ok ds dfs Hne), Hrep. }
  set (name := "concat-indexed" +:+ "-" +:+ pretty (tokens st1)).
  assert (∀ i, Forall (λ d : graph, d !! (name, i) = None) (dask <$> dfs2)) as Hnone.
  { intros i. apply Forall_fmap, Forall_forall. intros df2 Hdf2. simpl.
    apply (repartition_each_fresh _ _ _ _ _ _ Hrep); [| |done].
    - intros t j Heq. unfold name in Heq. cbn in Heq. discriminate Heq.
    - intros df Hdf. by apply Hfresh. }
  eexists dfs2, ds, parts, st1, _, _. split; [exact Halign|].
  split.
  { unfold concat_indexed_dataframes.
    rewrite bool_decide_eq_true_2, lift_bind by done.
    rewrite (bind_ok _ _ _ _ _ Halign). cbv beta iota.
    rewrite Hcols, lift_bind, next_token_bind. cbv zeta. reflexivity. }
  cbn [_name columns divisions dask tokens calls].
  do 3 (split; [done|]).
  intros i row Hrow. exists (fill_part (columns <$> dfs) row).
  assert (length row = length dfs) as Hrowlen.
  { pose proof (align_rows_width (length dfs) dfs2 (init ds) (replicate (length dfs) 0)
                  Hlen ltac:(by rewrite length_replicate)) as Hw.
    rewrite Forall_lookup in Hw. by apply (Hw i). }
  split; [|split].
  - fold name. rewrite merge_lookup_first by apply Hnone.
    rewrite imap_fmap.
    apply (graph_of_rows_lookup name
             (λ row, Some (ConcatTask (fill_part (columns <$> dfs) row) join)) parts i row Hrow).
  - unfold fill_part. rewrite length_zip_with, length_fmap. lia.
  - intros k df c Hdf Hc. apply fill_part_lookup; [done|].
    by rewrite list_lookup_fmap, Hdf.
Qed.

(** ** Instances of the further properties *)

Lemma align_matrix_shape_witness :
  match align [ex_coarse; ex_fine] st0 with
  | (Ok (dfs2, ds, parts), st') =>
      length dfs2 = 2 ∧
      NoDup ds ∧ (∀ x, x ∈ ds ↔ ∃ df, df ∈ [ex_coarse; ex_fine] ∧ x ∈ divisions df) ∧
      length parts = length ds - 1 ∧
      Forall (λ row, length row = 2) parts ∧
      calls st' = calls st0
                  ++ zip_with (λ df df2, Repartition (_name df) (divisions df2))
                       [ex_coarse; ex_fine] dfs2
  | _ => False
  end.
Proof.
  destruct (align [ex_coarse; ex_fine] st0) as [[[[dfs2 ds] parts]|e] st'] eqn:E.
  - exact (align_matrix_shape [ex_coarse; ex_fine] dfs2 ds parts st0 st' E).
  - vm_compute in E. discriminate E.
Defined.

Lemma align_slot_structure_witness :
  ∃ dfs2 ds parts st' df2 pre post lo hi,
    align [ex_low; ex_high; ex_fine] st0 = (Ok (dfs2, ds, parts), st') ∧
    dfs2 !! 1 = Some df2 ∧
    head (divisions ex_high) = Some lo ∧ last (divisions ex_high) = Some hi ∧
    head (divisions df2) = Some lo ∧ last (divisions df2) = Some hi ∧
    ds = pre ++ divisions df2 ++ post ∧
    Forall (λ v, (v < lo)%Z) pre ∧ Forall (λ v, (hi < v)%Z) post ∧
    (λ row : list (option key), row !! 1) <$> parts
    = Some <$> (replicate (length pre) None
                ++ refs (_name df2) 0 (length (divisions df2) - 1)
                ++ replicate (length post) None).
Proof.
  apply (align_slot_structure [ex_low; ex_high; ex_fine] st0 1 ex_high).
  - repeat constructor; (lia || discriminate).
  - reflexivity.
Defined.

Lemma align_single_witness :
  ∃ df2 ds st',
    align [ex_single_row] st0
    = (Ok ([df2], ds, (λ i, [Some (_name df2, i)]) <$> seq 0 (length ds - 1)), st') ∧
    divisions df2 = ds ∧ Sorted Z.lt ds ∧
    (∀ x, x ∈ ds ↔ x ∈ divisions ex_single_row) ∧
    (Sorted Z.lt (divisions ex_single_row) → ds = divisions ex_single_row).
Proof.
  apply (align_single ex_single_row st0).
  - repeat constructor; lia.
  - discriminate.
Defined.

Lemma require_cuts_a_range_witness :
  ∃ a b, take 3 doctest_parts = slice doctest_parts a b ∧
         [1; 3; 5; 7]%Z = slice doctest_divisions a (b + 1).
Proof.
  apply (require_cuts_a_range doctest_divisions doctest_parts (Some [0])).
  reflexivity.
Defined.

Lemma require_keeps_a_row_witness :
  drop 1 doctest_parts ≠ [] ∧
  (length doctest_divisions = length doctest_parts + 1 →
   length [3; 5; 7; 9]%Z = length (drop 1 doctest_parts) + 1).
Proof.
  apply (require_keeps_a_row doctest_divisions doctest_parts [1]).
  - discriminate.
  - reflexivity.
Defined.

Lemma require_rows_have_required_slots_witness :
  Forall (λ p : list (option key), ∃ k, p !! 1 = Some (Some k)) (take 2 (drop 1 doctest_parts)) ∧
  Forall (λ p : list (option key), ∃ k, p !! 0 = Some (Some k)) (take 2 (drop 1 doctest_parts)).
Proof.
  pose proof (require_rows_have_required_slots doctest_divisions doctest_parts [1; 0]
                [3; 5; 7]%Z (take 2 (drop 1 doctest_parts))
                (λ i _, doctest_contiguous i) eq_refl) as Hw.
  split; apply Hw; rewrite !elem_of_cons; auto.
Defined.

Lemma require_idempotent_witness :
  require [3; 5; 7]%Z (take 2 (drop 1 doctest_parts)) (Some [0; 1])
  = Ok ([3; 5; 7]%Z, take 2 (drop 1 doctest_parts)).
Proof.
  apply (require_idempotent doctest_divisions doctest_parts [0; 1]).
  - reflexivity.
  - intros i _. apply doctest_contiguous.
  - reflexivity.
Defined.

Lemma require_short_row_raises_witness :
  require doctest_divisions doctest_parts (Some [2; 0]) = Raise IndexError.
Proof.
  apply (require_short_row_raises doctest_divisions doctest_parts 2 [0]).
  left. simpl. lia.
Defined.

Lemma join_emits_tasks_witness :
  match join_indexed_dataframes (H := toy_pandas) ex_low ex_fine "left" "" "" st0 with
  | (Ok out, _) =>
      ∀ i, i < length (divisions out) - 1 → ∃ t, dask out !! (_name out, i) = Some (Some t)
  | _ => False
  end.
Proof.
  destruct (join_indexed_dataframes (H := toy_pandas) ex_low ex_fine "left" "" "" st0)
    as [[out|e] st'] eqn:E.
  - apply (join_emits_tasks (H := toy_pandas) ex_low ex_fine "left" "" "" st0 out st');
      [repeat constructor; lia..| |exact E].
    left.
  - vm_compute in E. discriminate E.
Defined.



Lemma outer_join_keeps_everything_witness :
  ∃ dfs2 ds parts st1 out st2,
    align [ex_low; ex_fine] st0 = (Ok (dfs2, ds, parts), st1) ∧
    join_indexed_dataframes (H := toy_pandas) ex_low ex_fine "outer" "" "" st0
    = (Ok out, st2) ∧
    divisions out = ds ∧ columns out = ["x"; "y"] ∧
    Sorted Z.lt ds ∧
    (∀ x, x ∈ ds ↔ x ∈ divisions ex_low ∨ x ∈ divisions ex_fine) ∧
    head ds = Some 1%Z ∧ last ds = Some 5%Z ∧
    length parts = length ds - 1.
Proof.
  apply (outer_join_keeps_everything (H := toy_pandas) ex_low ex_fine "" "" ["x"; "y"] st0
           1 3 1 5); try reflexivity; repeat constructor; lia.
Defined.

Lemma inner_join_keeps_overlap_witness :
  ∃ lhs2 rhs2 ds parts st1 out st2,
    align [ex_low; ex_fine] st0 = (Ok ([lhs2; rhs2], ds, parts), st1) ∧
    join_indexed_dataframes (H := toy_pandas) ex_low ex_fine "inner" "" "" st0
    = (Ok out, st2) ∧
    columns out = ["x"; "y"] ∧
    head (divisions out) = Some 1%Z ∧
    last (divisions out) = Some 3%Z ∧
    (∀ x, x ∈ divisions out ↔
          (x ∈ divisions ex_low ∨ x ∈ divisions ex_fine) ∧ (1 ≤ x ≤ 3)%Z) ∧
    Sorted Z.lt (divisions out) ∧
    ∀ i, i < length (divisions out) - 1 →
      ∃ a b, dask out !! (_name out, i)
             = Some (Some (JoinTask (Part (_name lhs2, a)) (Part (_name rhs2, b))
                             "inner" "" "")).
Proof.
  apply (inner_join_keeps_overlap (H := toy_pandas) ex_low ex_fine "" "" ["x"; "y"] st0
           1 3 1 5); try reflexivity; repeat constructor; lia.
Defined.

Lemma concat_rejects_first_witness :
  concat_indexed_dataframes (H := toy_pandas) [ex_empty; ex_fine] "left" st0
  = (Raise AssertionError, st0).
Proof.
  apply (concat_rejects_first (H := toy_pandas) [ex_empty; ex_fine] "left" st0).
  rewrite !elem_of_cons, elem_of_nil. intros [E|[E|[]]]; discriminate E.
Defined.

Lemma source_graph_fresh name src cols divs i :
  name ≠ src → dask (source src cols divs) !! (name, i) = None.
Proof.
  intros Hne. unfold source. cbn [dask].
  apply not_elem_of_list_to_map_1. rewrite <-list_fmap_compose.
  intros (j & Hj & _)%list_elem_of_fmap. simpl in Hj. congruence.
Qed.

Lemma concat_fills_absent_slots_witness :
  ∃ dfs2 ds parts st1 out st2,
    align [ex_low; ex_high] st0 = (Ok (dfs2, ds, parts), st1) ∧
    concat_indexed_dataframes (H := toy_pandas) [ex_low; ex_high] "outer" st0
    = (Ok out, st2) ∧
    columns out = ["x"; "y"] ∧ divisions out = ds ∧ calls st2 = calls st1 ∧
    ∀ i row, parts !! i = Some row →
      ∃ ops,
        dask out !! (_name out, i) = Some (Some (ConcatTask ops "outer")) ∧
        length ops = 2 ∧
        ∀ k df c, [ex_low; ex_high] !! k = Some df → row !! k = Some c →
          ops !! k = Some (from_option Part (Empty (columns df)) c).
Proof.
  apply (concat_fills_absent_slots (H := toy_pandas) [ex_low; ex_high] "outer"
           ["x"; "y"] st0).
  - right. left.
  - repeat constructor; discriminate.
  - reflexivity.
  - intros df t i Hdf. rewrite !elem_of_cons, elem_of_nil in Hdf.
    destruct Hdf as [->|[->|[]]]; apply source_graph_fresh; discriminate.
Defined.


Lemma bound_is_filter_witness :
  bound [1; 3; 3; 5; 8]%Z 3 5 = filter (λ v, (3 ≤ v ≤ 5)%Z) [1; 3; 3; 5; 8]%Z.
Proof.
  apply (bound_is_filter [1; 3; 3; 5; 8]%Z 3 5). repeat constructor; lia.
Defined.

Lemma concat_needs_boundaries_witness :
  concat_indexed_dataframes (H := toy_pandas) [ex_fine; ex_empty] "inner" st0
  = (Raise IndexError, st0).
Proof.
  apply (concat_needs_boundaries (H := toy_pandas) [ex_fine; ex_empty] "inner" st0).
  - left.
  - right. left. reflexivity.
Defined.
